(** * h3-boundary: boundary-face inheritance across H3 resolutions

    A shallow embedding of [h3_boundary_utils.py]: the four static face
    tables, the upward tracer [trace_cell_to_ancestor_faces], the finder
    [cell_to_coarsest_ancestor_on_faces] and the downward expander
    [children_on_boundary_faces], followed by the properties of the
    specification that concern them.

    Python dictionaries are [gmap]s, Python sets of faces are [gset Z],
    integers are [Z], raised exceptions are a value of [result]. *)

From stdpp Require Import gmap list fin_maps fin_sets.

Open Scope Z_scope.

(* [set_solver] clears hypotheses by name and warns when one is gone. *)
Set Warnings "-clear-no-such-hyp".

(** ** Exceptions and results *)

(** [ValueError] is what the module raises itself and [KeyError] what an
    indexed dictionary raises; [H3ResDomainError], a subclass of Python's
    [ValueError], is what [h3.cell_to_children] raises for a resolution the
    grid does not have.  [OutOfFuel] belongs to the embedding only: the [while] loop
    and the recursive descent are written over a [nat] bound, and the
    lemmas [coarsest_total] and [children_by_face_fuel] show that the bound
    handed over by the entry points is never exhausted. *)
Inductive exn : Set :=
  | ValueError
  | H3ResDomainError
  | KeyError
  | OutOfFuel.

Inductive result (A : Type) : Type :=
  | Ok (a : A)
  | Raise (e : exn).

Arguments Ok {A} a.
Arguments Raise {A} e.

Global Instance result_ret : MRet result := λ A a, Ok a.

Global Instance result_bind : MBind result := λ A B k r,
  match r with
  | Ok a => k a
  | Raise e => Raise e
  end.

(** [d[k]] on a dictionary: a missing key raises [KeyError]. *)
Definition getitem {V} (d : gmap Z V) (k : Z) : result V :=
  match d !! k with
  | Some v => Ok v
  | None => Raise KeyError
  end.

(** [d.get(k, {})]: a missing key yields the empty dictionary. *)
Definition get_or_empty {V} (d : gmap Z (gmap Z V)) (k : Z) : gmap Z V :=
  default ∅ (d !! k).

(** ** The face tables *)

Module Tables.

(** A dictionary literal [{k1: v1, k2: v2, ...}]. *)
Definition dict {V} (kvs : list (Z * V)) : gmap Z V := list_to_map kvs.

(** A set literal [{a, b, ...}]. *)
Definition fset (xs : list Z) : gset Z := list_to_set xs.

(** Child face to parent face, hexagonal parent. *)
Definition _boundary_face_mapping_hex : gmap Z (gmap Z (gmap Z Z)) :=
  dict [
    (0, dict [
      (0, dict []);
      (1, dict [(2, 3); (3, 1); (1, 1)]);
      (2, dict [(4, 6); (2, 2); (6, 2)]);
      (3, dict [(6, 2); (2, 3); (3, 3)]);
      (4, dict [(1, 5); (4, 4); (5, 4)]);
      (5, dict [(1, 5); (3, 1); (5, 5)]);
      (6, dict [(4, 6); (5, 4); (6, 6)])]);
    (1, dict [
      (0, dict []);
      (1, dict [(3, 3); (1, 3); (5, 1)]);
      (2, dict [(2, 6); (6, 6); (3, 2)]);
      (3, dict [(2, 2); (1, 3); (3, 2)]);
      (4, dict [(4, 5); (5, 5); (6, 4)]);
      (5, dict [(1, 1); (4, 5); (5, 1)]);
      (6, dict [(4, 4); (2, 6); (6, 4)])])].

(** Parent face to child faces, hexagonal parent. *)
Definition _reversed_boundary_face_mapping_hex
  : gmap Z (gmap Z (gmap Z (gset Z))) :=
  dict [
    (0, dict [
      (1, dict [(1, fset [1; 3]); (3, fset [2])]);
      (2, dict [(2, fset [2; 6]); (6, fset [4])]);
      (3, dict [(2, fset [6]); (3, fset [2; 3])]);
      (4, dict [(4, fset [4; 5]); (5, fset [1])]);
      (5, dict [(5, fset [1; 5]); (1, fset [3])]);
      (6, dict [(4, fset [5]); (6, fset [4; 6])]);
      (0, dict [])]);
    (1, dict [
      (1, dict [(3, fset [1; 3]); (1, fset [5])]);
      (2, dict [(6, fset [2; 6]); (2, fset [3])]);
      (3, dict [(2, fset [2; 3]); (3, fset [1])]);
      (4, dict [(5, fset [4; 5]); (4, fset [6])]);
      (5, dict [(1, fset [1; 5]); (5, fset [4])]);
      (6, dict [(4, fset [4; 6]); (6, fset [2])]);
      (0, dict [])])].

(** Child face to parent face, pentagonal parent. *)
Definition _boundary_face_mapping_pent : gmap Z (gmap Z (gmap Z Z)) :=
  dict [
    (0, dict [
      (0, dict []);
      (1, dict [(4, 5); (2, 1); (6, 1)]);
      (2, dict [(6, 1); (3, 2); (2, 2)]);
      (3, dict [(5, 2); (4, 2); (6, 4)]);
      (4, dict [(3, 2); (5, 4); (1, 2)]);
      (5, dict [(5, 3); (6, 5); (4, 5)]);
      (6, dict [])]);
    (1, dict [
      (0, dict []);
      (1, dict [(2, 5); (6, 5); (3, 1)]);
      (2, dict [(3, 1); (2, 1); (1, 2)]);
      (3, dict [(1, 4); (4, 3); (5, 3)]);
      (4, dict [(1, 2); (5, 2); (4, 4)]);
      (5, dict [(2, 5); (4, 3); (6, 3)]);
      (6, dict [])])].

(** Parent face to child faces, pentagonal parent. *)
Definition _reversed_boundary_face_mapping_pent
  : gmap Z (gmap Z (gmap Z (gset Z))) :=
  dict [
    (0, dict [
      (1, dict [(1, fset [2; 6]); (5, fset [4])]);
      (2, dict [(1, fset [6]); (2, fset [2; 3])]);
      (3, dict [(4, fset [1]); (3, fset [4; 5])]);
      (4, dict [(4, fset [5]); (2, fset [1; 3])]);
      (5, dict [(5, fset [4; 6]); (3, fset [5])]);
      (6, dict []);
      (0, dict [])]);
    (1, dict [
      (1, dict [(5, fset [2; 6]); (1, fset [3])]);
      (2, dict [(2, fset [1]); (1, fset [2; 3])]);
      (3, dict [(3, fset [6]); (4, fset [4; 5])]);
      (4, dict [(4, fset [4]); (2, fset [1; 5])]);
      (5, dict [(5, fset [2]); (3, fset [4; 6])]);
      (6, dict []);
      (0, dict [])])].

(** Table selection by the shape of the parent, as in
    [(_boundary_face_mapping_pent if parent_is_pent else _boundary_face_mapping_hex)]. *)
Definition forward_table (is_pent : bool) : gmap Z (gmap Z (gmap Z Z)) :=
  if is_pent then _boundary_face_mapping_pent else _boundary_face_mapping_hex.

Definition reverse_table (is_pent : bool) : gmap Z (gmap Z (gmap Z (gset Z))) :=
  if is_pent then _reversed_boundary_face_mapping_pent
  else _reversed_boundary_face_mapping_hex.

(** [table[parity][pos][child_face]] when all three keys are present. *)
Definition forward_lookup (is_pent : bool) (parity pos child_face : Z) : option Z :=
  by_pos ← forward_table is_pent !! parity;
  face_map ← by_pos !! pos;
  face_map !! child_face.

(** [table[parity][pos][parent_face]] when all three keys are present. *)
Definition reverse_lookup (is_pent : bool) (parity pos parent_face : Z)
  : option (gset Z) :=
  by_pos ← reverse_table is_pent !! parity;
  by_face ← by_pos !! pos;
  by_face !! parent_face.

(** The pair [child_face -> parent_face] is an entry of the forward table
    at [(shape, parity, pos)]. *)
Definition forward_has (is_pent : bool) (parity pos child_face parent_face : Z) : Prop :=
  forward_lookup is_pent parity pos child_face = Some parent_face.

(** The inverse table at [(shape, parity, pos)] sends [parent_face] to a
    set that contains [child_face]. *)
Definition inverse_has (is_pent : bool) (parity pos parent_face child_face : Z) : Prop :=
  ∃ s, reverse_lookup is_pent parity pos parent_face = Some s ∧ child_face ∈ s.

(** The six faces, the default of every [input_faces] argument. *)
Definition all_faces : gset Z := fset [1; 2; 3; 4; 5; 6].

End Tables.

Import Tables.

(** ** The grid service *)

(** The queries of the [h3] package the module uses.  Cells are opaque. *)
Class H3 (cell : Type) : Type := {
  get_resolution : cell → Z;
  is_pentagon : cell → bool;
  cell_to_parent : cell → Z → cell;
  cell_to_child_pos : cell → Z → Z;
  cell_to_children : cell → Z → list cell;
}.

(** [range(start, stop, -1)]. *)
Definition range_down (start stop : Z) : list Z :=
  (λ i : nat, start - Z.of_nat i) <$> seq 0 (Z.to_nat (start - stop)).

Section Core.

Context {cell : Type} `{H3 cell}.

(** *** trace_cell_to_ancestor_faces *)

(** [{face_map[f] for f in input_faces if f in face_map}]. *)
Definition map_faces (face_map : gmap Z Z) (input_faces : gset Z) : gset Z :=
  set_omap (C:=gset Z) (D:=gset Z) (λ f, face_map !! f) input_faces.

(** The [for res in range(h_res, res_parent, -1)] loop, over the list of
    values [res] takes; [h] and [input_faces] are the loop-carried
    variables. *)
Fixpoint trace_loop (ress : list Z) (h : cell) (input_faces : gset Z)
  : result (gset Z) :=
  match ress with
  | [] => Ok input_faces
  | res :: ress' =>
      if is_pentagon h then Ok ∅ else
      let parity := res `mod` 2 in
      let child_pos := cell_to_child_pos h (res - 1) in
      let parent := cell_to_parent h (res - 1) in
      let parent_is_pent := is_pentagon parent in
      if decide (child_pos = 0) then Ok ∅ else
      by_pos ← getitem (forward_table parent_is_pent) parity;
      let face_map := get_or_empty by_pos child_pos in
      let mapped_faces := map_faces face_map input_faces in
      if decide (mapped_faces = ∅) then Ok ∅ else
      trace_loop ress' parent mapped_faces
  end.

Definition trace_cell_to_ancestor_faces
    (h : cell) (input_faces : gset Z) (res_parent : option Z)
  : result (gset Z) :=
  let h_res := get_resolution h in
  let res_parent := default (h_res - 1) res_parent in
  if decide (res_parent >= h_res) then Raise ValueError else
  if decide (res_parent < 0) then Raise ValueError else
  if decide (input_faces = ∅) then Ok ∅ else
  trace_loop (range_down h_res res_parent) h input_faces.

(** The cell the loop has reached after running over [ress]. *)
Fixpoint ancestor_walk (ress : list Z) (h : cell) : cell :=
  match ress with
  | [] => h
  | res :: ress' => ancestor_walk ress' (cell_to_parent h (res - 1))
  end.

(** The dictionary the body of the loop maps the faces through, for the
    cell [h] at the iteration [res]. *)
Definition step_face_map (res : Z) (h : cell) : gmap Z Z :=
  get_or_empty
    (default ∅ (forward_table (is_pentagon (cell_to_parent h (res - 1)))
                  !! (res `mod` 2)))
    (cell_to_child_pos h (res - 1)).

(** *** trace_cell_to_parent_faces *)

Definition trace_cell_to_parent_faces (h : cell) (input_faces : gset Z)
  : result (gset Z) :=
  let parent_res := get_resolution h - 1 in
  trace_cell_to_ancestor_faces h input_faces (Some parent_res).

(** *** cell_to_coarsest_ancestor_on_faces *)

(** The [while res > 0] loop; [fuel] bounds the number of iterations. *)
Fixpoint coarsest_loop (fuel : nat) (res : Z) (h : cell) (input_faces : gset Z)
  : result cell :=
  if decide (res > 0) then
    match fuel with
    | O => Raise OutOfFuel
    | S fuel' =>
        let parent_res := res - 1 in
        boundary_faces ←
          trace_cell_to_ancestor_faces h input_faces (Some parent_res);
        if decide (boundary_faces = ∅) then Ok h else
        coarsest_loop fuel' parent_res (cell_to_parent h parent_res)
                      boundary_faces
    end
  else Ok h.

Definition cell_to_coarsest_ancestor_on_faces
    (h : cell) (input_faces : gset Z) : result cell :=
  let res := get_resolution h in
  coarsest_loop (Z.to_nat res) res h input_faces.

(** [G] is the face set the finder holds when it stands at [a], having
    started from [c] with [F]. *)
Definition carried (c : cell) (F : gset Z) (a : cell) (G : gset Z) : Prop :=
  (a = c ∧ G = F)
  ∨ (get_resolution a < get_resolution c
     ∧ a = cell_to_parent c (get_resolution a)
     ∧ G ≠ ∅
     ∧ trace_cell_to_ancestor_faces c F (Some (get_resolution a)) = Ok G).

(** The finder cannot leave [a] with [G]. *)
Definition halts (a : cell) (G : gset Z) : Prop :=
  get_resolution a ≤ 0
  ∨ trace_cell_to_ancestor_faces a G (Some (get_resolution a - 1)) = Ok ∅.

(** *** children_on_boundary_faces *)

(** The inner [for parent_face in faces] loop of [_children_by_face], over
    the elements of [faces]; [mapped_faces] is the set being built. *)
Fixpoint collect_child_faces
    (reverse_mapping : gmap Z (gmap Z (gset Z))) (child_pos : Z)
    (faces : list Z) (mapped_faces : gset Z) : result (gset Z) :=
  match faces with
  | [] => Ok mapped_faces
  | parent_face :: faces' =>
      by_face ← getitem reverse_mapping child_pos;
      if decide (is_Some (by_face !! parent_face)) then
        child_faces ← getitem by_face parent_face;
        collect_child_faces reverse_mapping child_pos faces'
                            (mapped_faces ∪ child_faces)
      else
        collect_child_faces reverse_mapping child_pos faces' mapped_faces
  end.

(** The child faces the inverse dictionary [by_face] of one position
    lists under the parent faces in [faces]. *)
Definition child_faces_of (by_face : gmap Z (gset Z)) (faces : gset Z)
  : gset Z :=
  set_bind (SB:=gset Z) (λ parent_face, default ∅ (by_face !! parent_face)) faces.

(** The [for child in h3.cell_to_children(current, res + 1)] loop, with
    [visit] the body that yields the cells to append to [acc]. *)
Fixpoint for_children (visit : cell → result (list cell))
    (children : list cell) (acc : list cell) : result (list cell) :=
  match children with
  | [] => Ok acc
  | child :: children' =>
      found ← visit child;
      for_children visit children' (acc ++ found)
  end.

(** The finest resolution of the grid, [MAX_H3_RES] in the h3 library. *)
Definition MAX_H3_RES : Z := 15.

(** [h3.cell_to_children(h, res)].  The library rejects a resolution that
    is coarser than that of the cell or finer than [MAX_H3_RES] with
    [H3ResDomainError]; within that range it lists the children the grid
    has at that resolution. *)
Definition h3_cell_to_children (h : cell) (res : Z) : result (list cell) :=
  if decide (res < get_resolution h ∨ MAX_H3_RES < res)
  then Raise H3ResDomainError
  else Ok (cell_to_children h res).

Fixpoint _children_by_face (fuel : nat) (target_res : Z)
    (current : cell) (res : Z) (faces : gset Z) : result (list cell) :=
  if decide (res = target_res) then Ok [current] else
  match fuel with
  | O => Raise OutOfFuel
  | S fuel' =>
      let parity := (res + 1) `mod` 2 in
      let is_pent := is_pentagon current in
      reverse_mapping ← getitem (reverse_table is_pent) parity;
      children ← h3_cell_to_children current (res + 1);
      for_children
        (λ child,
           let child_pos := cell_to_child_pos child res in
           mapped_faces ←
             collect_child_faces reverse_mapping child_pos (elements faces) ∅;
           if decide (mapped_faces = ∅) then Ok []
           else _children_by_face fuel' target_res child (res + 1) mapped_faces)
        children []
  end.

Definition children_on_boundary_faces
    (parent : cell) (target_res : Z) (input_faces : gset Z)
  : result (list cell) :=
  let res_parent := get_resolution parent in
  if decide (target_res < res_parent) then Raise ValueError else
  _children_by_face (Z.to_nat (target_res - res_parent)) target_res
                    parent res_parent input_faces.

End Core.

(** ** Coherence of the grid service *)

(** What the module takes for granted about [h3]: the parent at a coarser
    resolution has that resolution, and taking parents composes. *)
Class H3ParentLaws (cell : Type) `{H3 cell} : Prop := {
  parent_resolution (h : cell) (r : Z) :
    0 ≤ r < get_resolution h → get_resolution (cell_to_parent h r) = r;
  parent_parent (h : cell) (r r' : Z) :
    0 ≤ r' ≤ r → r < get_resolution h →
    cell_to_parent (cell_to_parent h r) r' = cell_to_parent h r';
}.

(** The immediate children of a cell are one level finer, have the cell
    as their parent, and sit at one of the positions 0..6. *)
Class H3ChildLaws (cell : Type) `{H3 cell} : Prop := {
  children_resolution (x ch : cell) :
    ch ∈ cell_to_children x (get_resolution x + 1) →
    get_resolution ch = get_resolution x + 1;
  children_parent (x ch : cell) :
    ch ∈ cell_to_children x (get_resolution x + 1) →
    cell_to_parent ch (get_resolution x) = x;
  children_pos (x ch : cell) :
    ch ∈ cell_to_children x (get_resolution x + 1) →
    0 ≤ cell_to_child_pos ch (get_resolution x) ≤ 6;
}.

(** The cells below [p]: [p] itself and, level by level, the immediate
    children the grid lists. *)
Inductive descendant {cell : Type} `{H3 cell} (p : cell) : cell → Prop :=
  | descendant_self : descendant p p
  | descendant_child (x ch : cell) :
      descendant p x →
      ch ∈ cell_to_children x (get_resolution x + 1) →
      descendant p ch.

(** [c] lies [n] levels below [x], read from [x] downwards. *)
Fixpoint below {cell : Type} `{H3 cell} (n : nat) (x c : cell) : Prop :=
  match n with
  | O => c = x
  | S n' =>
      ∃ ch, ch ∈ cell_to_children x (get_resolution x + 1) ∧ below n' ch c
  end.

(** ** A concrete grid *)

(** A small grid in the style of H3 addressing, on which the functions
    above can be run: a cell is a base-cell number with the digits chosen
    on the way down, finest first.  A base cell is a pentagon when it is
    one of H3's twelve pentagon base cells, and a finer cell is a pentagon
    when it is reached from one through centre digits only.  A hexagon has
    the children 0..6 at positions 0..6; a pentagon has no child with
    digit 1, and its children 0, 2, .., 6 sit at positions 0..5. *)
Module Digits.

Definition cell : Type := Z * list Z.

Definition pentagon_base (b : Z) : bool :=
  bool_decide (b ∈ [4; 14; 24; 38; 49; 58; 63; 72; 83; 97; 107; 117]).

Definition resolution (c : cell) : Z := Z.of_nat (length c.2).

Definition pentagon (c : cell) : bool :=
  pentagon_base c.1 && forallb (Z.eqb 0) c.2.

Definition parent (c : cell) (r : Z) : cell :=
  (c.1, drop (length c.2 - Z.to_nat r) c.2).

(** Position of a digit among the children of its parent. *)
Definition digit_pos (parent_is_pent : bool) (d : Z) : Z :=
  if parent_is_pent && bool_decide (0 < d) then d - 1 else d.

(** Position among the descendants of the ancestor at resolution [r],
    the finest digit being the least significant. *)
Fixpoint child_pos_digits (b : Z) (ds : list Z) (levels : nat) {struct levels}
  : Z :=
  match levels, ds with
  | S levels', d :: ds' =>
      digit_pos (pentagon (b, ds')) d + 7 * child_pos_digits b ds' levels'
  | _, _ => 0
  end.

Definition child_pos (c : cell) (r : Z) : Z :=
  child_pos_digits c.1 c.2 (length c.2 - Z.to_nat r).

Definition child_digits (c : cell) : list Z :=
  if pentagon c then [0; 2; 3; 4; 5; 6] else [0; 1; 2; 3; 4; 5; 6].

Definition children1 (c : cell) : list cell :=
  (λ d, (c.1, d :: c.2)) <$> child_digits c.

Fixpoint descend (levels : nat) (c : cell) : list cell :=
  match levels with
  | O => [c]
  | S levels' => children1 c ≫= descend levels'
  end.

Definition children (c : cell) (r : Z) : list cell :=
  descend (Z.to_nat (r - resolution c)) c.

Global Instance digits_h3 : H3 cell := {|
  get_resolution := resolution;
  is_pentagon := pentagon;
  cell_to_parent := parent;
  cell_to_child_pos := child_pos;
  cell_to_children := children;
|}.

End Digits.

(** ** Facts about the tables *)

(** Every fact below is a finite check over the entries of a table: it is
    phrased with [map_Forall] and [set_Forall], which are decidable, and
    settled by evaluation. *)
Ltac table_check := refine (bool_decide_unpack _ _); vm_compute; exact I.

Lemma getitem_Some {V} (d : gmap Z V) (k : Z) (v : V) :
  d !! k = Some v → getitem d k = Ok v.
Proof. unfold getitem. by intros ->. Qed.

Lemma getitem_None {V} (d : gmap Z V) (k : Z) :
  d !! k = None → getitem d k = Raise KeyError.
Proof. unfold getitem. by intros ->. Qed.

Section TableFacts.

Implicit Types (is_pent : bool) (parity pos : Z).

Lemma forward_lookup_Some is_pent parity pos child_face parent_face :
  forward_lookup is_pent parity pos child_face = Some parent_face ↔
  ∃ by_pos face_map,
    forward_table is_pent !! parity = Some by_pos
    ∧ by_pos !! pos = Some face_map
    ∧ face_map !! child_face = Some parent_face.
Proof.
  unfold forward_lookup. split.
  - intros Hl. apply bind_Some in Hl as (by_pos & Ht & Hl).
    apply bind_Some in Hl as (face_map & Hm & Hl). eauto.
  - intros (by_pos & face_map & -> & Hm & Hl). simpl. by rewrite Hm.
Qed.

Lemma reverse_lookup_Some is_pent parity pos parent_face s :
  reverse_lookup is_pent parity pos parent_face = Some s ↔
  ∃ by_pos by_face,
    reverse_table is_pent !! parity = Some by_pos
    ∧ by_pos !! pos = Some by_face
    ∧ by_face !! parent_face = Some s.
Proof.
  unfold reverse_lookup. split.
  - intros Hl. apply bind_Some in Hl as (by_pos & Ht & Hl).
    apply bind_Some in Hl as (by_face & Hm & Hl). eauto.
  - intros (by_pos & by_face & -> & Hm & Hl). simpl. by rewrite Hm.
Qed.

(** The outer keys of every table are exactly the two parities. *)
Lemma forward_parity_keys is_pent :
  is_Some (forward_table is_pent !! 0) ∧ is_Some (forward_table is_pent !! 1).
Proof. destruct is_pent; split; vm_compute; eauto. Qed.

Lemma reverse_parity_keys is_pent :
  is_Some (reverse_table is_pent !! 0) ∧ is_Some (reverse_table is_pent !! 1).
Proof. destruct is_pent; split; vm_compute; eauto. Qed.

Lemma mod2_cases (res : Z) : res `mod` 2 = 0 ∨ res `mod` 2 = 1.
Proof. pose proof (Z.mod_pos_bound res 2). lia. Qed.

Lemma getitem_forward_parity is_pent (res : Z) :
  ∃ by_pos, getitem (forward_table is_pent) (res `mod` 2) = Ok by_pos.
Proof.
  unfold getitem.
  destruct (forward_parity_keys is_pent) as [[t0 H0] [t1 H1]].
  destruct (mod2_cases res) as [-> | ->]; [rewrite H0 | rewrite H1]; eauto.
Qed.

Lemma getitem_reverse_parity is_pent (res : Z) :
  ∃ by_pos, getitem (reverse_table is_pent) (res `mod` 2) = Ok by_pos.
Proof.
  unfold getitem.
  destruct (reverse_parity_keys is_pent) as [[t0 H0] [t1 H1]].
  destruct (mod2_cases res) as [-> | ->]; [rewrite H0 | rewrite H1]; eauto.
Qed.

(** Position 0 is a key of every table and is bound to the empty
    dictionary. *)
Lemma forward_center_empty is_pent :
  map_Forall (λ _ by_pos, by_pos !! 0 = Some (∅ : gmap Z Z))
             (forward_table is_pent).
Proof. destruct is_pent; table_check. Qed.

Lemma reverse_center_empty is_pent :
  map_Forall (λ _ by_pos, by_pos !! 0 = Some (∅ : gmap Z (gset Z)))
             (reverse_table is_pent).
Proof. destruct is_pent; table_check. Qed.

(** Every inverse table has the seven positions 0..6 as keys. *)
Lemma reverse_positions_present is_pent :
  map_Forall (λ _ (by_pos : gmap Z (gmap Z (gset Z))),
                Forall (λ pos, is_Some (by_pos !! pos)) [0; 1; 2; 3; 4; 5; 6])
             (reverse_table is_pent).
Proof. destruct is_pent; table_check. Qed.

(** From the inverse tables back to the forward ones: every child face
    listed under a parent face maps to that parent face.  The pentagon
    tables break this at position 3. *)
Lemma reverse_to_forward is_pent :
  map_Forall (λ parity (by_pos : gmap Z (gmap Z (gset Z))),
    map_Forall (λ pos (by_face : gmap Z (gset Z)),
      map_Forall (λ parent_face (s : gset Z),
        set_Forall (λ child_face,
          (is_pent = true ∧ pos = 3)
          ∨ forward_lookup is_pent parity pos child_face = Some parent_face) s)
        by_face) by_pos)
    (reverse_table is_pent).
Proof. destruct is_pent; table_check. Qed.

(** From the forward tables to the inverse ones, with the same exception. *)
Lemma forward_to_reverse is_pent :
  map_Forall (λ parity (by_pos : gmap Z (gmap Z Z)),
    map_Forall (λ pos (face_map : gmap Z Z),
      map_Forall (λ child_face parent_face,
        (is_pent = true ∧ pos = 3)
        ∨ child_face ∈ default ∅ (reverse_lookup is_pent parity pos parent_face))
        face_map) by_pos)
    (forward_table is_pent).
Proof. destruct is_pent; table_check. Qed.

(** Faces in the inverse tables are among the six faces. *)
Lemma reverse_faces_in_range is_pent :
  map_Forall (λ _ (by_pos : gmap Z (gmap Z (gset Z))),
    map_Forall (λ _ (by_face : gmap Z (gset Z)),
      map_Forall (λ _ (s : gset Z), s ⊆ all_faces) by_face) by_pos)
    (reverse_table is_pent).
Proof. destruct is_pent; table_check. Qed.

(** [inverse_has] in a form that can be evaluated. *)
Lemma inverse_has_default is_pent parity pos parent_face child_face :
  inverse_has is_pent parity pos parent_face child_face
  ↔ child_face ∈ default ∅ (reverse_lookup is_pent parity pos parent_face).
Proof.
  unfold inverse_has.
  destruct (reverse_lookup is_pent parity pos parent_face) as [s |]; simpl.
  - split; [by intros (? & [= <-] & ?) | eauto].
  - split; [by intros (? & ? & _) | set_solver].
Qed.

(** Consistency of the two directions away from pentagon position 3. *)
Lemma tables_consistent is_pent parity pos child_face parent_face :
  ¬ (is_pent = true ∧ pos = 3) →
  forward_has is_pent parity pos child_face parent_face
  ↔ inverse_has is_pent parity pos parent_face child_face.
Proof.
  intros Hne. unfold forward_has, inverse_has. split.
  - intros Hf. apply forward_lookup_Some in Hf as (by_pos & fm & Ht & Hp & Hc).
    destruct (forward_to_reverse is_pent _ _ Ht _ _ Hp _ _ Hc) as [? | Hin];
      [done |].
    by apply inverse_has_default.
  - intros (s & Hr & Hin).
    apply reverse_lookup_Some in Hr as (by_pos & bf & Ht & Hp & Hc).
    destruct (reverse_to_forward is_pent _ _ Ht _ _ Hp _ _ Hc _ Hin); done.
Qed.

End TableFacts.

(** ** The loop of the tracer *)

Section RangeDown.

Lemma range_down_nil (start stop : Z) : start ≤ stop → range_down start stop = [].
Proof.
  intros Hle. unfold range_down.
  replace (Z.to_nat (start - stop)) with 0%nat by lia. done.
Qed.

Lemma range_down_cons (start stop : Z) :
  stop < start → range_down start stop = start :: range_down (start - 1) stop.
Proof.
  intros Hlt. unfold range_down.
  replace (Z.to_nat (start - stop)) with (S (Z.to_nat (start - 1 - stop))) by lia.
  rewrite <- cons_seq, fmap_cons, <- fmap_S_seq, <- list_fmap_compose.
  f_equal; [lia |]. apply list_fmap_ext. intros _ i _. simpl. lia.
Qed.

Lemma range_down_app (start mid stop : Z) :
  stop ≤ mid ≤ start →
  range_down start stop = range_down start mid ++ range_down mid stop.
Proof.
  intros [Hlo Hhi].
  remember (Z.to_nat (start - mid)) as n eqn:Hn.
  revert start Hhi Hn. induction n as [| n IH]; intros start Hhi Hn.
  - assert (start = mid) as -> by lia. by rewrite (range_down_nil mid mid).
  - rewrite (range_down_cons start stop), (range_down_cons start mid) by lia.
    simpl. f_equal. apply IH; lia.
Qed.

End RangeDown.

Section TraceLoop.

Context {cell : Type} `{H3 cell}.

Implicit Types (h : cell) (ress : list Z) (F G S : gset Z).

Lemma map_faces_elem (face_map : gmap Z Z) F y :
  y ∈ map_faces face_map F ↔ ∃ f, f ∈ F ∧ face_map !! f = Some y.
Proof. unfold map_faces. apply elem_of_set_omap. Qed.

Lemma map_faces_empty (face_map : gmap Z Z) : map_faces face_map ∅ = ∅.
Proof.
  apply set_eq. intros y. rewrite map_faces_elem. set_solver.
Qed.

Lemma map_faces_mono (face_map : gmap Z Z) F G :
  F ⊆ G → map_faces face_map F ⊆ map_faces face_map G.
Proof.
  intros Hsub y. rewrite !map_faces_elem. intros (f & Hf & Hy). eauto.
Qed.

Lemma ancestor_walk_app ress1 ress2 h :
  ancestor_walk (ress1 ++ ress2) h = ancestor_walk ress2 (ancestor_walk ress1 h).
Proof.
  revert h. induction ress1 as [| res ress1 IH]; intros h; [done |].
  simpl. apply IH.
Qed.

(** One iteration, with the table lookup known to succeed. *)
Lemma trace_loop_cons res ress h F :
  trace_loop (res :: ress) h F =
    if is_pentagon h then Ok ∅ else
    if decide (cell_to_child_pos h (res - 1) = 0) then Ok ∅ else
    if decide (map_faces (step_face_map res h) F = ∅) then Ok ∅ else
    trace_loop ress (cell_to_parent h (res - 1))
               (map_faces (step_face_map res h) F).
Proof.
  simpl. destruct (is_pentagon h); [done |].
  case_decide; [done |]. unfold step_face_map.
  destruct (getitem_forward_parity
              (is_pentagon (cell_to_parent h (res - 1))) res) as [by_pos Hg].
  rewrite Hg. unfold getitem in Hg.
  destruct (forward_table _ !! _) as [t |]; [| done].
  by simplify_eq.
Qed.

Lemma trace_loop_empty ress h : trace_loop ress h ∅ = Ok ∅.
Proof.
  destruct ress as [| res ress]; [done |].
  rewrite trace_loop_cons, map_faces_empty.
  repeat (case_match; try done).
Qed.

(** The loop never raises. *)
Lemma trace_loop_Ok ress h F : ∃ S, trace_loop ress h F = Ok S.
Proof.
  revert h F. induction ress as [| res ress IH]; intros h F; [by eexists |].
  rewrite trace_loop_cons. repeat (case_match; eauto).
Qed.

(** Running over [ress1 ++ ress2] is running over [ress1] and then, from
    the cell reached, over [ress2]. *)
Lemma trace_loop_app ress1 ress2 h F :
  trace_loop (ress1 ++ ress2) h F =
    (S ← trace_loop ress1 h F; trace_loop ress2 (ancestor_walk ress1 h) S).
Proof.
  revert h F. induction ress1 as [| res ress1 IH]; intros h F; [done |].
  rewrite <- app_comm_cons, !trace_loop_cons. simpl ancestor_walk.
  repeat (case_match; try (simpl; by rewrite trace_loop_empty)).
  apply IH.
Qed.

(** The loop is monotone in the candidate set. *)
Lemma trace_loop_mono ress h F G S T :
  F ⊆ G → trace_loop ress h F = Ok S → trace_loop ress h G = Ok T → S ⊆ T.
Proof.
  revert h F G S T. induction ress as [| res ress IH]; intros h F G S T Hsub.
  - simpl. intros [= <-] [= <-]. done.
  - rewrite !trace_loop_cons.
    pose proof (map_faces_mono (step_face_map res h) F G Hsub) as Hm.
    destruct (is_pentagon h); [by intros [= <-] |].
    destruct (decide (cell_to_child_pos h (res - 1) = 0)); [by intros [= <-] |].
    destruct (decide (map_faces (step_face_map res h) F = ∅)) as [HF | HF];
      [by intros [= <-] |].
    destruct (decide (map_faces (step_face_map res h) G = ∅)) as [HG | HG].
    + rewrite HG in Hm. set_solver.
    + by apply IH.
Qed.

End TraceLoop.

(** ** The tracer *)

Section Tracer.

Context {cell : Type} `{H3 cell}.

Implicit Types (h c : cell) (F G S : gset Z).

(** With a valid target the tracer is its loop. *)
Lemma trace_valid h F (t : Z) :
  0 ≤ t < get_resolution h →
  trace_cell_to_ancestor_faces h F (Some t)
  = trace_loop (range_down (get_resolution h) t) h F.
Proof.
  intros Ht. unfold trace_cell_to_ancestor_faces. simpl.
  rewrite !decide_False by lia.
  case_decide as HF; [| done]. subst F. by rewrite trace_loop_empty.
Qed.

Lemma trace_invalid h F (t : option Z) :
  let target := default (get_resolution h - 1) t in
  target >= get_resolution h ∨ target < 0 →
  trace_cell_to_ancestor_faces h F t = Raise ValueError.
Proof.
  intros target Hbad. unfold trace_cell_to_ancestor_faces. fold target.
  case_decide; [done |]. case_decide; [done | lia].
Qed.

(** The only exception the tracer raises is [ValueError], and only for a
    target that is out of order. *)
Lemma trace_raise h F (t : option Z) e :
  trace_cell_to_ancestor_faces h F t = Raise e →
  e = ValueError
  ∧ (default (get_resolution h - 1) t >= get_resolution h
     ∨ default (get_resolution h - 1) t < 0).
Proof.
  unfold trace_cell_to_ancestor_faces.
  case_decide; [intros [= <-]; auto |].
  case_decide; [intros [= <-]; auto |].
  case_decide; [done |].
  destruct (trace_loop_Ok
              (range_down (get_resolution h)
                          (default (get_resolution h - 1) t)) h F) as [S ->].
  done.
Qed.

Lemma trace_empty_input h (t : Z) :
  0 ≤ t < get_resolution h →
  trace_cell_to_ancestor_faces h ∅ (Some t) = Ok ∅.
Proof. intros Ht. by rewrite trace_valid, trace_loop_empty. Qed.

(** One level up, for a cell that is neither a pentagon nor a centre
    child. *)
Lemma trace_one_level c F :
  1 ≤ get_resolution c →
  is_pentagon c = false →
  cell_to_child_pos c (get_resolution c - 1) ≠ 0 →
  trace_cell_to_ancestor_faces c F (Some (get_resolution c - 1))
  = Ok (map_faces (step_face_map (get_resolution c) c) F).
Proof.
  intros Hres Hhex Hpos.
  rewrite trace_valid by lia.
  rewrite range_down_cons, range_down_nil by lia.
  rewrite trace_loop_cons, Hhex. rewrite decide_False by done.
  by case_decide as Hm; [rewrite Hm |].
Qed.

Context `{!H3ParentLaws cell}.

Lemma ancestor_walk_range c (t : Z) :
  0 ≤ t < get_resolution c →
  ancestor_walk (range_down (get_resolution c) t) c = cell_to_parent c t.
Proof.
  remember (Z.to_nat (get_resolution c - t)) as n eqn:Hn.
  revert c Hn. induction n as [| n IH]; intros c Hn Ht; [lia |].
  rewrite range_down_cons by lia. simpl.
  destruct (decide (t = get_resolution c - 1)) as [-> | Hne].
  - by rewrite range_down_nil by lia.
  - pose proof (parent_resolution c (get_resolution c - 1)) as Hp.
    rewrite <- Hp at 1 by lia.
    rewrite IH by (rewrite ?Hp; lia).
    apply parent_parent; lia.
Qed.

(** Tracing in two stages. *)
Lemma trace_compose c F (t1 t2 : Z) :
  0 ≤ t2 → t2 < t1 → t1 < get_resolution c →
  trace_cell_to_ancestor_faces c F (Some t2)
  = (G ← trace_cell_to_ancestor_faces c F (Some t1);
     trace_cell_to_ancestor_faces (cell_to_parent c t1) G (Some t2)).
Proof.
  intros H0 H12 H1R.
  rewrite !(trace_valid c) by lia.
  rewrite (range_down_app _ t1 t2) by lia.
  rewrite trace_loop_app.
  destruct (trace_loop (range_down (get_resolution c) t1) c F) as [G | e];
    [| done].
  simpl. rewrite ancestor_walk_range by lia.
  rewrite trace_valid by (rewrite parent_resolution; lia).
  by rewrite parent_resolution by lia.
Qed.

End Tracer.

(** ** The expander *)

Section Expander.

Context {cell : Type} `{H3 cell}.

Implicit Types (current p c ch : cell) (F G S faces : gset Z).

Lemma child_faces_of_elem (by_face : gmap Z (gset Z)) faces y :
  y ∈ child_faces_of by_face faces ↔
  ∃ parent_face s, parent_face ∈ faces ∧ by_face !! parent_face = Some s ∧ y ∈ s.
Proof.
  unfold child_faces_of. rewrite elem_of_set_bind. split.
  - intros (pf & Hpf & Hy). destruct (by_face !! pf) as [s |] eqn:Hs;
      simpl in Hy; [eauto | set_solver].
  - intros (pf & s & Hpf & Hs & Hy). exists pf. by rewrite Hs.
Qed.

(** The inner loop with the position present: no exception, and the
    union of the listed child faces is added to the accumulator. *)
Lemma collect_child_faces_list (reverse_mapping : gmap Z (gmap Z (gset Z)))
    (child_pos : Z) (by_face : gmap Z (gset Z)) (l : list Z) (acc : gset Z) :
  reverse_mapping !! child_pos = Some by_face →
  collect_child_faces reverse_mapping child_pos l acc
  = Ok (acc ∪ ⋃ ((λ parent_face, default ∅ (by_face !! parent_face)) <$> l)).
Proof.
  intros Hpos. revert acc. induction l as [| pf l IH]; intros acc; simpl.
  - f_equal. set_solver.
  - rewrite (getitem_Some _ _ _ Hpos). simpl.
    case_decide as Hkey.
    + destruct Hkey as [s Hs]. rewrite (getitem_Some _ _ _ Hs), Hs. simpl.
      rewrite IH. f_equal. set_solver.
    + apply eq_None_not_Some in Hkey. rewrite Hkey. simpl.
      rewrite IH. f_equal. set_solver.
Qed.

Lemma collect_child_faces_present (reverse_mapping : gmap Z (gmap Z (gset Z)))
    (child_pos : Z) (by_face : gmap Z (gset Z)) faces :
  reverse_mapping !! child_pos = Some by_face →
  collect_child_faces reverse_mapping child_pos (elements faces) ∅
  = Ok (child_faces_of by_face faces).
Proof.
  intros Hpos. rewrite (collect_child_faces_list _ _ by_face) by done.
  f_equal. unfold child_faces_of, set_bind. set_solver.
Qed.

(** The inner loop raises nothing but [KeyError]. *)
Lemma collect_child_faces_raise (reverse_mapping : gmap Z (gmap Z (gset Z)))
    (child_pos : Z) (l : list Z) (acc : gset Z) e :
  collect_child_faces reverse_mapping child_pos l acc = Raise e →
  e = KeyError ∧ reverse_mapping !! child_pos = None.
Proof.
  destruct (reverse_mapping !! child_pos) as [by_face |] eqn:Hpos.
  - by rewrite (collect_child_faces_list _ _ by_face).
  - destruct l as [| pf l]; simpl; [done |].
    rewrite (getitem_None _ _ Hpos). simpl. by intros [= <-].
Qed.

(** The loop over the children: its outcome in terms of the visits. *)
Lemma for_children_Ok (visit : cell → result (list cell)) (l acc r : list cell) :
  for_children visit l acc = Ok r →
  ∀ x, x ∈ r ↔ x ∈ acc ∨ ∃ ch found, ch ∈ l ∧ visit ch = Ok found ∧ x ∈ found.
Proof.
  revert acc. induction l as [| ch l IH]; intros acc; simpl.
  - intros [= <-] x. split; [auto |]. intros [? | (? & ? & Hin & _)]; [done |].
    by apply elem_of_nil in Hin.
  - destruct (visit ch) as [found |] eqn:Hv; simpl; [| done].
    intros Hr x. rewrite (IH _ Hr x), elem_of_app. split.
    + intros [[? | ?] | (ch' & f' & Hin & Hv' & Hx)]; auto.
      * right. exists ch, found. rewrite elem_of_cons. auto.
      * right. exists ch', f'. rewrite elem_of_cons. auto.
    + intros [? | (ch' & f' & Hin & Hv' & Hx)]; [auto |].
      apply elem_of_cons in Hin as [-> | Hin].
      * left. right. congruence.
      * right. eauto.
Qed.

Lemma for_children_raise (visit : cell → result (list cell)) (l acc : list cell) e :
  for_children visit l acc = Raise e → ∃ ch, ch ∈ l ∧ visit ch = Raise e.
Proof.
  revert acc. induction l as [| ch l IH]; intros acc; simpl; [done |].
  destruct (visit ch) as [found |] eqn:Hv; simpl.
  - intros Hr. destruct (IH _ Hr) as (ch' & Hin & Hv'). exists ch'.
    rewrite elem_of_cons. auto.
  - intros [= <-]. exists ch. rewrite elem_of_cons. auto.
Qed.

Lemma for_children_total (visit : cell → result (list cell)) (l acc : list cell) :
  (∀ ch, ch ∈ l → ∃ found, visit ch = Ok found) →
  ∃ r, for_children visit l acc = Ok r.
Proof.
  intros Hall. destruct (for_children visit l acc) as [r | e] eqn:Hr; [eauto |].
  apply for_children_raise in Hr as (ch & Hin & Hv).
  destruct (Hall ch Hin) as [found Hf]. congruence.
Qed.

(** One level of the descent, with the parity lookup known to succeed. *)
Lemma children_by_face_step (fuel : nat) (target_res : Z) current (res : Z) faces :
  res ≠ target_res →
  ∃ reverse_mapping,
    reverse_table (is_pentagon current) !! ((res + 1) `mod` 2)
      = Some reverse_mapping
    ∧ _children_by_face (S fuel) target_res current res faces =
      if decide (res + 1 < get_resolution current ∨ MAX_H3_RES < res + 1)
      then Raise H3ResDomainError
      else
      for_children
        (λ child,
           mapped_faces ←
             collect_child_faces reverse_mapping (cell_to_child_pos child res)
                                 (elements faces) ∅;
           if decide (mapped_faces = ∅) then Ok []
           else _children_by_face fuel target_res child (res + 1) mapped_faces)
        (cell_to_children current (res + 1)) [].
Proof.
  intros Hne.
  destruct (getitem_reverse_parity (is_pentagon current) (res + 1))
    as [reverse_mapping Hg].
  exists reverse_mapping. split.
  - unfold getitem in Hg. by destruct (reverse_table _ !! _); simplify_eq.
  - simpl. rewrite decide_False by done. rewrite Hg. simpl.
    unfold h3_cell_to_children. by case_decide.
Qed.

(** The descent raises no [ValueError]. *)
Lemma children_by_face_no_ValueError (fuel : nat) (target_res : Z)
    current (res : Z) faces :
  _children_by_face fuel target_res current res faces ≠ Raise ValueError.
Proof.
  revert current res faces.
  induction fuel as [| fuel IH]; intros current res faces.
  - simpl. by case_decide.
  - destruct (decide (res = target_res)) as [-> | Hne].
    + simpl. by rewrite decide_True.
    + destruct (children_by_face_step fuel target_res current res faces Hne)
        as (rm & _ & ->).
      case_decide; [done |].
      intros Hr. apply for_children_raise in Hr as (ch & _ & Hv).
      destruct (collect_child_faces rm _ _ _) as [mapped | e] eqn:Hc; simpl in Hv.
      * case_decide; [done |]. by eapply IH.
      * apply collect_child_faces_raise in Hc as [-> _]. done.
Qed.

(** The bound handed over by [children_on_boundary_faces] suffices. *)
Lemma children_by_face_fuel (fuel : nat) (target_res : Z)
    current (res : Z) faces :
  res ≤ target_res → (Z.to_nat (target_res - res) ≤ fuel)%nat →
  _children_by_face fuel target_res current res faces ≠ Raise OutOfFuel.
Proof.
  revert current res faces.
  induction fuel as [| fuel IH]; intros current res faces Hle Hfuel.
  - simpl. rewrite decide_True by lia. done.
  - destruct (decide (res = target_res)) as [-> | Hne].
    + simpl. by rewrite decide_True.
    + destruct (children_by_face_step fuel target_res current res faces Hne)
        as (rm & _ & ->).
      case_decide; [done |].
      intros Hr. apply for_children_raise in Hr as (ch & _ & Hv).
      destruct (collect_child_faces rm _ _ _) as [mapped | e] eqn:Hc; simpl in Hv.
      * case_decide; [done |]. eapply IH; [| | exact Hv]; lia.
      * apply collect_child_faces_raise in Hc as [-> _]. done.
Qed.

End Expander.

Section ExpanderOnGrid.

Context {cell : Type} `{H3 cell} `{!H3ChildLaws cell}.

Implicit Types (current p c ch : cell) (F G S faces : gset Z).

Lemma reverse_position_lookup (is_pent : bool) (parity pos : Z)
    (by_pos : gmap Z (gmap Z (gset Z))) :
  reverse_table is_pent !! parity = Some by_pos →
  0 ≤ pos ≤ 6 → is_Some (by_pos !! pos).
Proof.
  intros Ht Hpos.
  pose proof (reverse_positions_present is_pent _ _ Ht) as Hall.
  rewrite Forall_forall in Hall. apply Hall.
  rewrite !elem_of_cons. lia.
Qed.

(** On a coherent grid the descent returns a list when the target is a
    resolution the grid has. *)
Lemma children_by_face_total (fuel : nat) (target_res : Z) current faces :
  target_res ≤ MAX_H3_RES →
  get_resolution current ≤ target_res →
  (Z.to_nat (target_res - get_resolution current) ≤ fuel)%nat →
  ∃ cells,
    _children_by_face fuel target_res current (get_resolution current) faces
    = Ok cells.
Proof.
  intros Hmax. revert current faces.
  induction fuel as [| fuel IH]; intros current faces Hle Hfuel.
  - exists [current]. simpl. rewrite decide_True by lia. done.
  - destruct (decide (get_resolution current = target_res)) as [Heq | Hne].
    + exists [current]. simpl. by rewrite decide_True.
    + destruct (children_by_face_step fuel target_res current _ faces Hne)
        as (rm & Hrm & ->).
      rewrite decide_False by lia.
      apply for_children_total. intros ch Hch.
      destruct (reverse_position_lookup _ _ _ _ Hrm (children_pos _ _ Hch))
        as [by_face Hbf].
      rewrite (collect_child_faces_present _ _ _ _ Hbf). simpl.
      case_decide; [by eexists |].
      rewrite <- (children_resolution _ _ Hch).
      apply IH; rewrite (children_resolution _ _ Hch); lia.
Qed.

(** On a coherent grid the descent raises nothing but the error of
    [h3.cell_to_children], and that only for a target finer than the grid. *)
Lemma children_by_face_raise (fuel : nat) (target_res : Z) current faces e :
  get_resolution current ≤ target_res →
  (Z.to_nat (target_res - get_resolution current) ≤ fuel)%nat →
  _children_by_face fuel target_res current (get_resolution current) faces
    = Raise e →
  e = H3ResDomainError ∧ MAX_H3_RES < target_res.
Proof.
  revert current faces.
  induction fuel as [| fuel IH]; intros current faces Hle Hfuel.
  - simpl. rewrite decide_True by lia. done.
  - destruct (decide (get_resolution current = target_res)) as [Heq | Hne].
    + simpl. by rewrite decide_True.
    + destruct (children_by_face_step fuel target_res current _ faces Hne)
        as (rm & Hrm & ->).
      case_decide as Hdom; [intros [= <-]; split; [done | lia] |].
      intros Hr. apply for_children_raise in Hr as (ch & Hch & Hv).
      destruct (reverse_position_lookup _ _ _ _ Hrm (children_pos _ _ Hch))
        as [by_face Hbf].
      rewrite (collect_child_faces_present _ _ _ _ Hbf) in Hv. simpl in Hv.
      case_decide; [done |].
      rewrite <- (children_resolution _ _ Hch) in Hv.
      apply (IH ch _) in Hv; [done | |];
        rewrite (children_resolution _ _ Hch); lia.
Qed.

(** What the descent hands back, traced up again.  Every cell [c] of the
    result is at the target resolution, and carries a set [G] of faces
    whose trace from [c] up to [current] is a non-empty part of [faces],
    as long as only hexagons are met below [p]. *)
Lemma children_by_face_trace (fuel : nat) (target_res : Z) p current faces
    (cells : list cell) c :
  (∀ x, descendant p x → is_pentagon x = false) →
  descendant p current →
  get_resolution current ≤ target_res →
  faces ≠ ∅ ∨ get_resolution current ≠ target_res →
  _children_by_face fuel target_res current (get_resolution current) faces
    = Ok cells →
  c ∈ cells →
  get_resolution c = target_res
  ∧ ∃ G S,
      G ≠ ∅
      ∧ (G = faces ∧ c = current ∨ G ⊆ all_faces)
      ∧ trace_loop (range_down target_res (get_resolution current)) c G = Ok S
      ∧ S ≠ ∅ ∧ S ⊆ faces
      ∧ ancestor_walk (range_down target_res (get_resolution current)) c
        = current.
Proof.
  intros Hhex. revert current faces cells.
  induction fuel as [| fuel IH]; intros current faces cells Hdesc Hle Hfaces.
  - simpl. case_decide as Heq; [| done].
    intros [= <-] ->%list_elem_of_singleton. split; [done |].
    exists faces, faces. rewrite <- Heq, range_down_nil by lia.
    destruct Hfaces; [| done]. split_and!; auto.
  - destruct (decide (get_resolution current = target_res)) as [Heq | Hne].
    + simpl. rewrite decide_True by done.
      intros [= <-] ->%list_elem_of_singleton. split; [done |].
      exists faces, faces. rewrite <- Heq, range_down_nil by lia.
      destruct Hfaces; [| done]. split_and!; auto.
    + destruct (children_by_face_step fuel target_res current _ faces Hne)
        as (rm & Hrm & ->).
      case_decide; [done |].
      intros Hcells Hc.
      apply (for_children_Ok _ _ _ _ Hcells) in Hc
        as [Hc | (ch & found & Hch & Hvisit & Hc)];
        [by apply elem_of_nil in Hc |].
      pose proof (children_resolution _ _ Hch) as Hres.
      pose proof (children_parent _ _ Hch) as Hpar.
      destruct (reverse_position_lookup _ _ _ _ Hrm (children_pos _ _ Hch))
        as [by_face Hbf].
      rewrite (collect_child_faces_present _ _ _ _ Hbf) in Hvisit.
      simpl in Hvisit.
      case_decide as Hmapped;
        [simplify_eq; by apply elem_of_nil in Hc |].
      rewrite <- Hres in Hvisit.
      assert (descendant p ch) as Hdch by (by eapply descendant_child).
      destruct (IH ch _ _ Hdch ltac:(lia) (or_introl Hmapped) Hvisit Hc)
        as (HresC & G & S' & HG & HGall & Hloop & HS' & HS'sub & Hwalk).
      split; [done |].
      set (fm := step_face_map (get_resolution ch) ch).
      assert (∀ cf, cf ∈ S' → ∃ pf, pf ∈ faces ∧ fm !! cf = Some pf) as Hfm.
      { intros cf Hcf. apply HS'sub in Hcf.
        apply child_faces_of_elem in Hcf as (pf & s & Hpf & Hs & Hcf).
        exists pf. split; [done |].
        rewrite (Hhex current Hdesc) in Hrm.
        destruct (reverse_to_forward false _ _ Hrm _ _ Hbf _ _ Hs _ Hcf)
          as [[? _] | Hfwd]; [done |].
        apply forward_lookup_Some in Hfwd as (by_pos & face_map & Ht & Hp & Hl).
        unfold fm, step_face_map, get_or_empty.
        rewrite Hres. replace (get_resolution current + 1 - 1)
          with (get_resolution current) by lia.
        rewrite Hpar, (Hhex current Hdesc), Ht. simpl. by rewrite Hp. }
      exists G, (map_faces fm S').
      assert (map_faces fm S' ≠ ∅) as Hne'.
      { apply set_choose_L in HS' as [cf Hcf].
        destruct (Hfm cf Hcf) as (pf & _ & Hl).
        intros Hempty.
        assert (pf ∈ map_faces fm S') as Hin
          by (apply map_faces_elem; eauto).
        rewrite Hempty in Hin. set_solver. }
      assert (cell_to_child_pos ch (get_resolution ch - 1) ≠ 0) as Hpos.
      { rewrite Hres. replace (get_resolution current + 1 - 1)
          with (get_resolution current) by lia.
        intros Hzero. rewrite Hzero in Hbf.
        rewrite (reverse_center_empty _ _ _ Hrm) in Hbf.
        apply Hmapped. simplify_eq. apply set_eq. intros y.
        rewrite child_faces_of_elem. split; [| set_solver].
        intros (pf & s & _ & Hs & _). by rewrite lookup_empty in Hs. }
      split_and!.
      * done.
      * right. destruct HGall as [[-> ->] | ?]; [| done].
        intros y Hy. apply child_faces_of_elem in Hy as (pf & s & _ & Hs & Hy).
        exact (reverse_faces_in_range _ _ _ Hrm _ _ Hbf _ _ Hs _ Hy).
      * rewrite (range_down_app _ (get_resolution ch)) by lia.
        rewrite trace_loop_app, Hloop. simpl. rewrite Hwalk.
        rewrite range_down_cons, range_down_nil by lia.
        rewrite trace_loop_cons.
        rewrite (Hhex ch Hdch). rewrite decide_False by done.
        fold fm. by rewrite decide_False by done.
      * done.
      * intros pf. rewrite map_faces_elem. intros (cf & Hcf & Hl).
        destruct (Hfm cf Hcf) as (pf' & Hpf' & Hl'). congruence.
      * rewrite (range_down_app _ (get_resolution ch)) by lia.
        rewrite (range_down_cons (get_resolution ch)),
          (range_down_nil (get_resolution ch - 1)) by lia.
        rewrite ancestor_walk_app. simpl. rewrite Hwalk.
        replace (get_resolution ch - 1) with (get_resolution current) by lia.
        done.
Qed.

End ExpanderOnGrid.

(** ** The finder *)

Section Finder.

Context {cell : Type} `{H3 cell}.

Implicit Types (h c a : cell) (F G : gset Z).

Lemma coarsest_halts a G :
  halts a G → cell_to_coarsest_ancestor_on_faces a G = Ok a.
Proof.
  unfold cell_to_coarsest_ancestor_on_faces. intros [Hroot | Hstop].
  - destruct (Z.to_nat (get_resolution a)); simpl; by rewrite decide_False by lia.
  - destruct (decide (get_resolution a > 0)) as [Hpos | Hroot].
    + destruct (Z.to_nat (get_resolution a)) as [| n] eqn:Hn; [lia |].
      simpl. rewrite decide_True by done. rewrite Hstop. simpl.
      by rewrite decide_True.
    + destruct (Z.to_nat (get_resolution a)); simpl; by rewrite decide_False.
Qed.

Context `{!H3ParentLaws cell}.

(** The loop of the finder returns a cell, with the face set carried to
    it, and the finder cannot leave that cell. *)
Lemma coarsest_loop_spec (fuel : nat) c F :
  (Z.to_nat (get_resolution c) ≤ fuel)%nat →
  ∃ a G, coarsest_loop fuel (get_resolution c) c F = Ok a
         ∧ carried c F a G ∧ halts a G.
Proof.
  revert c F. induction fuel as [| fuel IH]; intros c F Hfuel.
  - exists c, F. simpl. rewrite decide_False by lia.
    split_and!; [done | by left | left; lia].
  - destruct (decide (get_resolution c > 0)) as [Hpos | Hroot].
    2:{ exists c, F. simpl. rewrite decide_False by done.
        split_and!; [done | by left | left; lia]. }
    simpl. rewrite decide_True by done.
    destruct (trace_loop_Ok (range_down (get_resolution c) (get_resolution c - 1))
                c F) as [bf Hbf].
    rewrite <- trace_valid in Hbf by lia. rewrite Hbf. simpl.
    case_decide as Hempty.
    { exists c, F. split_and!; [done | by left | right; by subst bf]. }
    assert (get_resolution (cell_to_parent c (get_resolution c - 1))
            = get_resolution c - 1) as Hp by (apply parent_resolution; lia).
    set (p := cell_to_parent c (get_resolution c - 1)) in *.
    destruct (IH p bf) as (a & G & Hloop & Hcar & Hhalt); [lia |].
    rewrite Hp in Hloop. exists a, G. split_and!; [done | | done].
    right. destruct Hcar as [[-> ->] | (Hlt & Ha & HG & Htr)].
    + rewrite Hp. split_and!; [lia | done | done | done].
    + assert (0 ≤ get_resolution a) as Hnonneg.
      { destruct (decide (0 ≤ get_resolution a)); [done |].
        rewrite trace_invalid in Htr by (simpl; lia). done. }
      split_and!; [lia | | done |].
      * etrans; [exact Ha |]. unfold p. apply parent_parent; lia.
      * rewrite (trace_compose c F (get_resolution c - 1)) by lia.
        rewrite Hbf. simpl. done.
Qed.

End Finder.

(** ** The digit grid is coherent *)

Module DigitsLaws.

Import Digits.

Lemma children_elem (x ch : cell) :
  ch ∈ children x (resolution x + 1) ↔
  ∃ d, d ∈ child_digits x ∧ ch = (x.1, d :: x.2).
Proof.
  unfold children.
  replace (Z.to_nat (resolution x + 1 - resolution x)) with 1%nat by lia.
  simpl. rewrite list_elem_of_bind. unfold children1. split.
  - intros (y & ->%list_elem_of_singleton & Hy).
    apply list_elem_of_fmap in Hy as (d & -> & Hd). eauto.
  - intros (d & Hd & ->). exists (x.1, d :: x.2).
    split; [by apply list_elem_of_singleton |].
    apply list_elem_of_fmap. eauto.
Qed.

Global Instance digits_parent_laws : H3ParentLaws cell.
Proof.
  split.
  - intros [b ds] r. simpl. unfold resolution, parent. simpl.
    rewrite length_drop. lia.
  - intros [b ds] r r'. simpl. unfold resolution, parent. simpl.
    intros Hr' Hr. rewrite length_drop, drop_drop. do 2 f_equal. lia.
Qed.

Global Instance digits_child_laws : H3ChildLaws cell.
Proof.
  split; simpl.
  - intros x ch (d & _ & ->)%children_elem. unfold resolution. simpl. lia.
  - intros [b ds] ch (d & _ & ->)%children_elem.
    unfold resolution, parent. simpl.
    rewrite Nat2Z.id.
    replace (S (length ds) - length ds)%nat with 1%nat by lia.
    done.
  - intros [b ds] ch (d & Hd & ->)%children_elem.
    unfold resolution, child_pos. simpl.
    rewrite Nat2Z.id.
    replace (S (length ds) - length ds)%nat with 1%nat by lia.
    simpl. unfold child_digits, digit_pos in *.
    destruct (pentagon (b, ds)); simpl;
      repeat (apply elem_of_cons in Hd as [-> | Hd]; [by vm_compute |]);
      by apply elem_of_nil in Hd.
Qed.

(** Below a cell of a hexagonal base cell there are hexagons only. *)
Lemma descendant_base (p x : cell) : descendant p x → x.1 = p.1.
Proof.
  induction 1 as [| x ch _ IH Hch]; [done |].
  apply children_elem in Hch as (d & _ & ->). done.
Qed.

Lemma hexagons_below (p : cell) :
  pentagon_base p.1 = false → ∀ x, descendant p x → is_pentagon x = false.
Proof.
  intros Hbase x Hx. simpl. unfold pentagon.
  by rewrite (descendant_base p x Hx), Hbase.
Qed.

End DigitsLaws.

(** ** The properties of the specification *)

(** *** The tables *)

(** C1. The forward and the inverse tables are meant to list the same
    pairs, but the pentagon tables disagree at position 3: at even parity
    the forward table sends child face 5 to parent face 2 while the
    inverse table has no entry for parent face 2, and the inverse table
    lists child face 4 under parent face 3 while the forward table sends
    face 4 to face 2.  The same holds at odd parity with other faces. *)
Theorem pentagon_inverse_table_mismatch :
  (forward_has true 0 3 5 2 ∧ ¬ inverse_has true 0 3 2 5)
  ∧ (inverse_has true 0 3 3 4 ∧ ¬ forward_has true 0 3 4 3)
  ∧ (forward_has true 1 3 1 4 ∧ ¬ inverse_has true 1 3 4 1)
  ∧ (inverse_has true 1 3 3 6 ∧ ¬ forward_has true 1 3 6 3).
Proof.
  rewrite !inverse_has_default. unfold forward_has.
  split_and!; table_check.
Qed.

(** C8, as the claim states it, fails: position 0 is a key of the
    forward and of the inverse table of the hexagon at even parity. *)
Lemma center_position_is_key :
  (∃ by_pos, _boundary_face_mapping_hex !! 0 = Some by_pos ∧ 0 ∈ dom by_pos)
  ∧ (∃ by_pos, _reversed_boundary_face_mapping_hex !! 0 = Some by_pos
               ∧ 0 ∈ dom by_pos).
Proof.
  split.
  - destruct (forward_parity_keys false) as [[by_pos Ht] _].
    exists by_pos. split; [done |]. apply elem_of_dom.
    by rewrite (forward_center_empty false _ _ Ht).
  - destruct (reverse_parity_keys false) as [[by_pos Ht] _].
    exists by_pos. split; [done |]. apply elem_of_dom.
    by rewrite (reverse_center_empty false _ _ Ht).
Qed.

(** C8, amended.  In every table, for either shape and either parity,
    position 0 is a key and is bound to the empty dictionary, so that no
    face is listed under the centre child in either direction. *)
Theorem center_position_bound_to_empty (is_pent : bool) :
  map_Forall (λ _ by_pos, by_pos !! 0 = Some (∅ : gmap Z Z))
             (forward_table is_pent)
  ∧ map_Forall (λ _ by_pos, by_pos !! 0 = Some (∅ : gmap Z (gset Z)))
               (reverse_table is_pent)
  ∧ ∀ parity face,
      forward_lookup is_pent parity 0 face = None
      ∧ reverse_lookup is_pent parity 0 face = None.
Proof.
  split_and!.
  - apply forward_center_empty.
  - apply reverse_center_empty.
  - intros parity face. unfold forward_lookup, reverse_lookup. split.
    + destruct (forward_table is_pent !! parity) as [by_pos |] eqn:Ht; [| done].
      simpl. by rewrite (forward_center_empty is_pent _ _ Ht).
    + destruct (reverse_table is_pent !! parity) as [by_pos |] eqn:Ht; [| done].
      simpl. by rewrite (reverse_center_empty is_pent _ _ Ht).
Qed.

(** *** The tracer *)

(** C2, as the claim states it, fails: a hexagon of resolution 6 at
    position 3 under a hexagon is traced through the table of parity
    [6 mod 2 = 0]; faces 2 and 3 give face 3, and faces 5 and 6 give
    face 2. *)
Lemma trace_position3_resolution6_counterexample :
  let c : Digits.cell := (0, [3; 1; 1; 1; 1; 1]) in
  get_resolution c = 6
  ∧ is_pentagon c = false
  ∧ cell_to_child_pos c 5 = 3
  ∧ is_pentagon (cell_to_parent c 5) = false
  ∧ trace_cell_to_ancestor_faces c (fset [2; 3]) (Some 5) = Ok (fset [3])
  ∧ trace_cell_to_ancestor_faces c (fset [2; 3]) (Some 5) ≠ Ok (fset [2])
  ∧ trace_cell_to_ancestor_faces c (fset [5; 6]) (Some 5) = Ok (fset [2])
  ∧ trace_cell_to_ancestor_faces c (fset [5; 6]) (Some 5) ≠ Ok ∅.
Proof.
  split_and!; try (by vm_compute).
Qed.

(** C2, amended.  For a cell that is not a pentagon, at position 3 under
    a hexagon, the one-level trace goes through the table picked by the
    parity of the resolution of the cell itself.  At an even resolution,
    6 for one, faces 2 and 3 give face 3 and faces 5 and 6 give face 2; at
    an odd resolution faces 2 and 3 give face 2 and faces 5 and 6 give
    nothing. *)
Theorem trace_position3_one_level {cell : Type} `{H3 cell} (c : cell) :
  1 ≤ get_resolution c →
  is_pentagon c = false →
  cell_to_child_pos c (get_resolution c - 1) = 3 →
  is_pentagon (cell_to_parent c (get_resolution c - 1)) = false →
  let up F :=
    trace_cell_to_ancestor_faces c F (Some (get_resolution c - 1)) in
  (get_resolution c `mod` 2 = 0 →
     up (fset [2; 3]) = Ok (fset [3]) ∧ up (fset [5; 6]) = Ok (fset [2]))
  ∧ (get_resolution c `mod` 2 = 1 →
     up (fset [2; 3]) = Ok (fset [2]) ∧ up (fset [5; 6]) = Ok ∅).
Proof.
  intros Hres Hhex Hpos Hparent up. unfold up.
  rewrite !trace_one_level by (rewrite ?Hpos; done).
  unfold step_face_map. rewrite Hparent, Hpos.
  split; intros ->; split; by vm_compute.
Qed.

Lemma trace_position3_one_level_witness :
  let c : Digits.cell := (0, [3; 1; 1; 1; 1; 1]) in
  (1 ≤ get_resolution c
   ∧ is_pentagon c = false
   ∧ cell_to_child_pos c (get_resolution c - 1) = 3
   ∧ is_pentagon (cell_to_parent c (get_resolution c - 1)) = false)
  ∧ trace_cell_to_ancestor_faces c (fset [2; 3]) (Some 5) = Ok (fset [3])
  ∧ trace_cell_to_ancestor_faces c (fset [5; 6]) (Some 5) = Ok (fset [2]).
Proof.
  intros c.
  assert (1 ≤ get_resolution c) as Hres by (vm_compute; discriminate).
  split; [by split_and! |].
  exact (proj1 (trace_position3_one_level c Hres eq_refl eq_refl eq_refl)
               eq_refl).
Defined.

(** C3, as the claim states it, fails: asked for the resolution of the
    cell itself, the tracer does not hand the faces back. *)
Lemma trace_zero_levels_counterexample :
  let c : Digits.cell := (0, [3; 1; 1; 1; 1; 1]) in
  fset [1] ≠ ∅
  ∧ trace_cell_to_ancestor_faces c (fset [1]) (Some (get_resolution c))
    ≠ Ok (fset [1]).
Proof.
  split; by vm_compute.
Qed.

(** C3, amended.  For every cell and every face set, a target equal to
    the resolution of the cell is rejected with [ValueError]: the tracer
    has no zero-level case. *)
Theorem trace_own_resolution_rejected {cell : Type} `{H3 cell}
    (c : cell) (F : gset Z) :
  trace_cell_to_ancestor_faces c F (Some (get_resolution c)) = Raise ValueError.
Proof. apply trace_invalid. simpl. lia. Qed.

(** C6.  On a coherent grid, for targets [t2 < t1] below the resolution
    of the cell, the trace up to [t2] is the trace up to [t1] carried on
    from the ancestor at [t1]; one level further the result lies in the
    image of the faces found at [t1] under the dictionary of that level;
    and an empty result at [t1] stays empty at [t2]. *)
Theorem trace_two_stage {cell : Type} `{H3 cell} `{!H3ParentLaws cell}
    (c : cell) (F : gset Z) (t1 t2 : Z) :
  0 ≤ t2 → t2 < t1 → t1 < get_resolution c →
  ∃ G,
    trace_cell_to_ancestor_faces c F (Some t1) = Ok G
    ∧ trace_cell_to_ancestor_faces c F (Some t2)
      = trace_cell_to_ancestor_faces (cell_to_parent c t1) G (Some t2)
    ∧ (t2 = t1 - 1 →
       ∃ S, trace_cell_to_ancestor_faces c F (Some t2) = Ok S
            ∧ S ⊆ map_faces (step_face_map t1 (cell_to_parent c t1)) G)
    ∧ (G = ∅ → trace_cell_to_ancestor_faces c F (Some t2) = Ok ∅).
Proof.
  intros H0 H12 H1R.
  destruct (trace_loop_Ok (range_down (get_resolution c) t1) c F) as [G HG].
  rewrite <- trace_valid in HG by lia.
  assert (get_resolution (cell_to_parent c t1) = t1) as Hp
    by (apply parent_resolution; lia).
  assert (trace_cell_to_ancestor_faces c F (Some t2)
          = trace_cell_to_ancestor_faces (cell_to_parent c t1) G (Some t2))
    as Hcomp by (by rewrite (trace_compose c F t1 t2), HG by lia).
  exists G. split_and!; [done | done | |].
  - intros ->. rewrite Hcomp, trace_valid by lia.
    rewrite Hp, range_down_cons, range_down_nil by lia.
    rewrite trace_loop_cons.
    repeat case_match; eexists; (split; [done |]); set_solver.
  - intros ->. rewrite Hcomp. apply trace_empty_input. lia.
Qed.

Lemma trace_two_stage_witness :
  let c : Digits.cell := (0, [3; 1; 1; 1; 1; 1]) in
  (0 ≤ 3 ∧ 3 < 5 ∧ 5 < get_resolution c)
  ∧ ∃ G,
      trace_cell_to_ancestor_faces c (fset [2; 3]) (Some 5) = Ok G
      ∧ trace_cell_to_ancestor_faces c (fset [2; 3]) (Some 3)
        = trace_cell_to_ancestor_faces (cell_to_parent c 5) G (Some 3)
      ∧ (3 = 5 - 1 →
         ∃ S, trace_cell_to_ancestor_faces c (fset [2; 3]) (Some 3) = Ok S
              ∧ S ⊆ map_faces (step_face_map 5 (cell_to_parent c 5)) G)
      ∧ (G = ∅ →
         trace_cell_to_ancestor_faces c (fset [2; 3]) (Some 3) = Ok ∅).
Proof.
  intros c.
  assert (0 ≤ 3) as H0 by lia.
  assert (3 < 5) as H1 by lia.
  assert (5 < get_resolution c) as H2 by (vm_compute; reflexivity).
  split; [by split_and! |].
  exact (trace_two_stage c (fset [2; 3]) 5 3 H0 H1 H2).
Defined.

(** *** The finder *)

(** The bound handed over by [cell_to_coarsest_ancestor_on_faces]
    suffices: on a coherent grid the finder returns a cell. *)
Lemma coarsest_total {cell : Type} `{H3 cell} `{!H3ParentLaws cell}
    (c : cell) (F : gset Z) :
  ∃ a, cell_to_coarsest_ancestor_on_faces c F = Ok a.
Proof.
  destruct (coarsest_loop_spec (Z.to_nat (get_resolution c)) c F)
    as (a & G & Ha & _); [lia |].
  by exists a.
Qed.

(** C7.  On a coherent grid the finder returns a cell [a], and run again
    from [a] with the face set carried there (the input set when [a] is
    the input cell, the trace of the input set up to the resolution of
    [a] otherwise) it returns [a]. *)
Theorem coarsest_ancestor_fixed_point {cell : Type} `{H3 cell}
    `{!H3ParentLaws cell} (c : cell) (F : gset Z) :
  ∃ a,
    cell_to_coarsest_ancestor_on_faces c F = Ok a
    ∧ ((a = c ∧ cell_to_coarsest_ancestor_on_faces a F = Ok a)
       ∨ (a ≠ c
          ∧ ∃ G,
              trace_cell_to_ancestor_faces c F (Some (get_resolution a)) = Ok G
              ∧ cell_to_coarsest_ancestor_on_faces a G = Ok a)).
Proof.
  destruct (coarsest_loop_spec (Z.to_nat (get_resolution c)) c F)
    as (a & G & Ha & Hcar & Hhalt); [lia |].
  exists a. split; [done |].
  destruct Hcar as [[-> ->] | (Hlt & _ & _ & Htr)].
  - left. split; [done |]. by apply coarsest_halts.
  - right. split; [intros ->; lia |].
    exists G. split; [done |]. by apply coarsest_halts.
Qed.

Lemma coarsest_ancestor_fixed_point_witness :
  let c : Digits.cell := (0, [3; 1; 3; 1; 1; 1]) in
  ∃ a,
    cell_to_coarsest_ancestor_on_faces c (fset [2; 3]) = Ok a
    ∧ ((a = c ∧ cell_to_coarsest_ancestor_on_faces a (fset [2; 3]) = Ok a)
       ∨ (a ≠ c
          ∧ ∃ G,
              trace_cell_to_ancestor_faces c (fset [2; 3])
                                           (Some (get_resolution a)) = Ok G
              ∧ cell_to_coarsest_ancestor_on_faces a G = Ok a)).
Proof.
  exact (coarsest_ancestor_fixed_point
           (H3ParentLaws0 := DigitsLaws.digits_parent_laws)
           ((0, [3; 1; 3; 1; 1; 1]) : Digits.cell) (fset [2; 3])).
Defined.

(** *** The errors *)

(** C4, as the claim states it, fails: asked to descend from a cell of
    resolution 15, the finest of the grid, to resolution 16, the expander
    raises although the target is not below the resolution of the cell;
    the error is the [H3ResDomainError] of [h3.cell_to_children], a
    [ValueError], and it comes from inside the descent. *)
Lemma expand_beyond_finest_counterexample :
  let c : Digits.cell := (0, [1; 2; 3; 4; 5; 6; 1; 2; 3; 4; 5; 6; 1; 2; 3]) in
  get_resolution c = 15
  ∧ ¬ 16 < get_resolution c
  ∧ children_on_boundary_faces c 16 (fset [1]) = Raise H3ResDomainError.
Proof.
  split_and!; by vm_compute.
Qed.

(** C4, amended.  The tracer raises [ValueError] exactly when its target
    is at or above the resolution of the cell or is negative, and returns
    a face set otherwise.  The expander raises its own [ValueError]
    exactly when its target is below the resolution of the parent cell,
    and never exhausts the bound of its descent; on a coherent grid it
    returns a list for every other target up to the finest resolution 15,
    and the only other error it raises is the [H3ResDomainError] of
    [h3.cell_to_children], for a target above 15 only; from a parent cell
    at resolution 15 or more it raises that error for every finer target.
    The conditions of the module's own [ValueError] read the resolution
    of the argument only. *)
Theorem resolution_errors {cell : Type} `{H3 cell} :
  (∀ (h : cell) (F : gset Z) (t : option Z),
     let target := default (get_resolution h - 1) t in
     (trace_cell_to_ancestor_faces h F t = Raise ValueError
      ↔ target >= get_resolution h ∨ target < 0)
     ∧ (¬ (target >= get_resolution h ∨ target < 0) →
        ∃ S, trace_cell_to_ancestor_faces h F t = Ok S))
  ∧ (∀ (p : cell) (target_res : Z) (F : gset Z),
       (children_on_boundary_faces p target_res F = Raise ValueError
        ↔ target_res < get_resolution p)
       ∧ children_on_boundary_faces p target_res F ≠ Raise OutOfFuel
       ∧ (MAX_H3_RES ≤ get_resolution p < target_res →
          children_on_boundary_faces p target_res F = Raise H3ResDomainError))
  ∧ (H3ChildLaws cell →
     ∀ (p : cell) (target_res : Z) (F : gset Z),
       (¬ target_res < get_resolution p → target_res ≤ MAX_H3_RES →
        ∃ cells, children_on_boundary_faces p target_res F = Ok cells)
       ∧ (∀ e, children_on_boundary_faces p target_res F = Raise e →
               (e = ValueError ∧ target_res < get_resolution p)
               ∨ (e = H3ResDomainError ∧ MAX_H3_RES < target_res))).
Proof.
  split_and!.
  - intros h F t target. split; [split |].
    + intros Hr. by apply trace_raise in Hr as [_ ?].
    + apply trace_invalid.
    + intros Hok.
      destruct (trace_cell_to_ancestor_faces h F t) as [S | e] eqn:Hr;
        [eauto |].
      by apply trace_raise in Hr as [_ ?].
  - intros p target_res F. unfold children_on_boundary_faces.
    case_decide as Hlt.
    + split_and!; [done | done | lia].
    + split_and!.
      * split; [| lia].
        intros Hr. by apply children_by_face_no_ValueError in Hr.
      * apply children_by_face_fuel; lia.
      * intros [Hmax Hdeep].
        destruct (Z.to_nat (target_res - get_resolution p)) as [| fuel]
          eqn:Hfuel; [lia |].
        destruct (children_by_face_step fuel target_res p (get_resolution p) F)
          as (rm & _ & ->); [lia |].
        rewrite decide_True by lia. done.
  - intros Hlaws p target_res F. unfold children_on_boundary_faces. split.
    + intros Hge Hmax. rewrite decide_False by done.
      apply children_by_face_total; lia.
    + intros e. case_decide as Hlt; [intros [= <-]; by left |].
      intros Hr. right.
      by apply children_by_face_raise in Hr; [| lia | lia].
Qed.

Lemma resolution_errors_witness :
  let c : Digits.cell := (0, [3; 1; 1; 1; 1; 1]) in
  trace_cell_to_ancestor_faces c (fset [1]) (Some 10) = Raise ValueError
  ∧ (∃ S, trace_cell_to_ancestor_faces c (fset [1]) (Some 4) = Ok S)
  ∧ children_on_boundary_faces c 5 (fset [1]) = Raise ValueError
  ∧ (∃ cells, children_on_boundary_faces c 8 (fset [1]) = Ok cells).
Proof.
  intros c.
  pose proof (resolution_errors (cell:=Digits.cell))
    as (Htrace & Hexpand & Htotal).
  split_and!.
  - apply (Htrace c (fset [1]) (Some 10)). left. by vm_compute.
  - apply (Htrace c (fset [1]) (Some 4)). intros [Hbad | Hbad];
      by vm_compute in Hbad.
  - apply (Hexpand c 5 (fset [1])). by vm_compute.
  - apply (Htotal DigitsLaws.digits_child_laws c 8 (fset [1]));
      by vm_compute.
Defined.

(** *** The expander *)

(** C9.  With the target equal to the resolution of the parent cell the
    expander returns the one-element list of that cell, whatever the face
    set, the empty one included. *)
Theorem expand_same_resolution {cell : Type} `{H3 cell} (p : cell) (F : gset Z) :
  children_on_boundary_faces p (get_resolution p) F = Ok [p].
Proof.
  unfold children_on_boundary_faces. rewrite decide_False by lia.
  destruct (Z.to_nat _); simpl; by rewrite decide_True.
Qed.

(** C10.  Every inverse table has an entry for each of the positions
    0..6 at both parities, the inner loop over the parent faces succeeds
    on such an entry, and so the expander raises no [KeyError] on a grid
    whose child positions are within 0..6; it returns a list for every
    target from the resolution of the parent cell up to the finest
    resolution of the grid. *)
Theorem expand_lookups_total {cell : Type} `{H3 cell} `{!H3ChildLaws cell} :
  (∀ (is_pent : bool) (parity pos : Z),
     parity = 0 ∨ parity = 1 → 0 ≤ pos ≤ 6 →
     ∃ by_pos by_face,
       reverse_table is_pent !! parity = Some by_pos
       ∧ by_pos !! pos = Some by_face
       ∧ ∀ faces : gset Z,
           collect_child_faces by_pos pos (elements faces) ∅
           = Ok (child_faces_of by_face faces))
  ∧ (∀ (p : cell) (target_res : Z) (F : gset Z),
       children_on_boundary_faces p target_res F ≠ Raise KeyError
       ∧ (get_resolution p ≤ target_res → target_res ≤ MAX_H3_RES →
          ∃ cells, children_on_boundary_faces p target_res F = Ok cells)).
Proof.
  split.
  - intros is_pent parity pos Hparity Hpos.
    destruct (reverse_parity_keys is_pent) as [[t0 H0] [t1 H1]].
    assert (∃ by_pos, reverse_table is_pent !! parity = Some by_pos)
      as [by_pos Ht] by (destruct Hparity as [-> | ->]; eauto).
    destruct (reverse_position_lookup _ _ _ _ Ht Hpos) as [by_face Hbf].
    exists by_pos, by_face. split_and!; [done | done |].
    intros faces. by apply collect_child_faces_present.
  - intros p target_res F. unfold children_on_boundary_faces.
    case_decide as Hlt; [split; [done | lia] |].
    split.
    + intros Hr. by apply children_by_face_raise in Hr as [? _]; [| lia | lia].
    + intros _ Hmax. apply children_by_face_total; lia.
Qed.

Lemma expand_lookups_total_witness :
  (∃ by_pos by_face,
     reverse_table true !! 1 = Some by_pos
     ∧ by_pos !! 6 = Some by_face
     ∧ ∀ faces : gset Z,
         collect_child_faces by_pos 6 (elements faces) ∅
         = Ok (child_faces_of by_face faces))
  ∧ children_on_boundary_faces (H:=Digits.digits_h3) (4, []) 2 (fset [3])
    ≠ Raise KeyError.
Proof.
  pose proof (expand_lookups_total (cell:=Digits.cell)) as [Htab Hexp].
  split.
  - apply Htab; [by right | lia].
  - apply Hexp.
Defined.

(** C5, as the claim states it, fails.  Expanding the hexagon [(0, [1])]
    one level down with face 1 returns the child at position 5, which the
    expansion reached with child face 3; traced one level up, that child
    gives faces 1 and 5 from the six faces, and face 5 from face 1 alone.
    Neither result lies within [{1}]. *)
Lemma expand_trace_subset_counterexample :
  let p : Digits.cell := (0, [1]) in
  let c : Digits.cell := (0, [5; 1]) in
  get_resolution p = 1
  ∧ children_on_boundary_faces p (1 + 1) (fset [1]) = Ok [(0, [1; 1]); c]
  ∧ trace_cell_to_ancestor_faces c all_faces (Some 1) = Ok (fset [1; 5])
  ∧ ¬ fset [1; 5] ⊆ fset [1]
  ∧ trace_cell_to_ancestor_faces c (fset [1]) (Some 1) = Ok (fset [5])
  ∧ ¬ fset [5] ⊆ fset [1].
Proof.
  split_and!; try (by vm_compute); table_check.
Qed.

(** C5, amended.  On a coherent grid, for a parent cell [p] below which
    there are hexagons only, a face set [F] and [k >= 1] levels that stay
    within the finest resolution 15 of the grid, the expander returns a
    list, and every cell [c] of it has a non-empty set [G] of faces whose
    trace [k] levels up is a non-empty subset of [F]; the trace of all
    six faces from [c] is non-empty and meets [F]. *)
Theorem expand_trace_round_trip {cell : Type} `{H3 cell} `{!H3ChildLaws cell}
    (p : cell) (k : Z) (F : gset Z) :
  0 ≤ get_resolution p → 1 ≤ k → get_resolution p + k ≤ MAX_H3_RES →
  (∀ x, descendant p x → is_pentagon x = false) →
  ∃ cells,
    children_on_boundary_faces p (get_resolution p + k) F = Ok cells
    ∧ ∀ c, c ∈ cells →
        (∃ G S,
           G ≠ ∅ ∧ G ⊆ all_faces
           ∧ trace_cell_to_ancestor_faces c G (Some (get_resolution p)) = Ok S
           ∧ S ≠ ∅ ∧ S ⊆ F)
        ∧ (∃ T,
             trace_cell_to_ancestor_faces c all_faces (Some (get_resolution p))
             = Ok T
             ∧ T ∩ F ≠ ∅).
Proof.
  intros Hres Hk Hmax Hhex.
  unfold children_on_boundary_faces. rewrite decide_False by lia.
  destruct (children_by_face_total
              (Z.to_nat (get_resolution p + k - get_resolution p))
              (get_resolution p + k) p F) as [cells Hcells];
    [done | lia | lia |].
  exists cells. split; [done |]. intros c Hc.
  assert (get_resolution p ≤ get_resolution p + k) as Hle by lia.
  assert (F ≠ ∅ ∨ get_resolution p ≠ get_resolution p + k) as Hdeep
    by (right; lia).
  destruct (children_by_face_trace _ _ p p F cells c Hhex
              (descendant_self p) Hle Hdeep Hcells Hc)
    as (HresC & G & S & HG & HGall & Hloop & HS & HSF & _).
  assert (G ⊆ all_faces) as Hall.
  { destruct HGall as [[_ ->] | ?]; [lia | done]. }
  rewrite <- HresC, <- trace_valid in Hloop by lia.
  split; [by exists G, S |].
  destruct (trace_loop_Ok (range_down (get_resolution c) (get_resolution p))
              c all_faces) as [T HT].
  exists T. rewrite trace_valid by lia. split; [done |].
  rewrite trace_valid in Hloop by lia.
  pose proof (trace_loop_mono _ _ _ _ _ _ Hall Hloop HT) as HST.
  apply set_choose_L in HS as [f Hf]. set_solver.
Qed.

Lemma expand_trace_round_trip_witness :
  let p : Digits.cell := (0, [1]) in
  ∃ cells,
    children_on_boundary_faces p (get_resolution p + 2) (fset [1]) = Ok cells
    ∧ ∀ c, c ∈ cells →
        (∃ G S,
           G ≠ ∅ ∧ G ⊆ all_faces
           ∧ trace_cell_to_ancestor_faces c G (Some (get_resolution p)) = Ok S
           ∧ S ≠ ∅ ∧ S ⊆ fset [1])
        ∧ (∃ T,
             trace_cell_to_ancestor_faces c all_faces (Some (get_resolution p))
             = Ok T
             ∧ T ∩ fset [1] ≠ ∅).
Proof.
  intros p.
  assert (0 ≤ get_resolution p) as Hres by (vm_compute; discriminate).
  assert (1 ≤ 2) as Hk by lia.
  assert (get_resolution p + 2 ≤ MAX_H3_RES) as Hmax
    by (vm_compute; discriminate).
  exact (expand_trace_round_trip
           (H3ChildLaws0 := DigitsLaws.digits_child_laws)
           p 2 (fset [1]) Hres Hk Hmax
           (DigitsLaws.hexagons_below p eq_refl)).
Defined.

(** The disagreement of the pentagon tables at position 3 shows in the
    round trip: expanding the pentagon [(4, [0])] one level down with
    face 3 returns the child at position 3, and the trace of the six
    faces from that child gives faces 2 and 4, neither of them face 3. *)
Remark pentagon_round_trip_breaks :
  let p : Digits.cell := (4, [0]) in
  let c : Digits.cell := (4, [4; 0]) in
  is_pentagon p = true
  ∧ cell_to_child_pos c 1 = 3
  ∧ children_on_boundary_faces p 2 (fset [3]) = Ok [c; (4, [6; 0])]
  ∧ trace_cell_to_ancestor_faces c all_faces (Some 1) = Ok (fset [2; 4])
  ∧ fset [2; 4] ∩ fset [3] = ∅.
Proof.
  split_and!; by vm_compute.
Qed.

(** ** Further properties of the tracer *)

Section TracerMore.

Context {cell : Type} `{H3 cell}.

Implicit Types (h c : cell) (F G S T : gset Z).

(** Child and parent faces of the forward tables are among the six
    faces. *)
Lemma forward_faces_in_range (is_pent : bool) :
  map_Forall (λ _ (by_pos : gmap Z (gmap Z Z)),
    map_Forall (λ _ (face_map : gmap Z Z),
      map_Forall (λ child_face parent_face,
        child_face ∈ all_faces ∧ parent_face ∈ all_faces) face_map) by_pos)
    (forward_table is_pent).
Proof. destruct is_pent; table_check. Qed.

Lemma step_face_map_range (res : Z) h (child_face parent_face : Z) :
  step_face_map res h !! child_face = Some parent_face →
  child_face ∈ all_faces ∧ parent_face ∈ all_faces.
Proof.
  unfold step_face_map, get_or_empty.
  destruct (forward_table _ !! _) as [by_pos |] eqn:Ht; simpl; [| done].
  destruct (by_pos !! _) as [face_map |] eqn:Hp; simpl; [| done].
  intros Hl. exact (forward_faces_in_range _ _ _ Ht _ _ Hp _ _ Hl).
Qed.

Lemma map_faces_range (res : Z) h F :
  map_faces (step_face_map res h) F ⊆ all_faces.
Proof.
  intros y. rewrite map_faces_elem. intros (f & _ & Hl).
  by apply step_face_map_range in Hl as [_ ?].
Qed.

Lemma map_faces_union (face_map : gmap Z Z) F G :
  map_faces face_map (F ∪ G) = map_faces face_map F ∪ map_faces face_map G.
Proof.
  apply set_eq. intros y. rewrite elem_of_union, !map_faces_elem.
  split.
  - intros (f & [Hf | Hf]%elem_of_union & Hl); eauto.
  - intros [(f & Hf & Hl) | (f & Hf & Hl)]; exists f; set_solver.
Qed.

Lemma map_faces_foreign (res : Z) h F :
  map_faces (step_face_map res h) (F ∩ all_faces)
  = map_faces (step_face_map res h) F.
Proof.
  apply set_eq. intros y. rewrite !map_faces_elem. split.
  - intros (f & Hf & Hl). exists f. set_solver.
  - intros (f & Hf & Hl). exists f. split; [| done].
    apply step_face_map_range in Hl as [? _]. set_solver.
Qed.

(** The tracer with its guards, the test on the empty set absorbed by the
    loop. *)
Lemma trace_unfold h F (t : option Z) :
  trace_cell_to_ancestor_faces h F t =
    let target := default (get_resolution h - 1) t in
    if decide (target >= get_resolution h) then Raise ValueError else
    if decide (target < 0) then Raise ValueError else
    trace_loop (range_down (get_resolution h) target) h F.
Proof.
  unfold trace_cell_to_ancestor_faces. simpl.
  repeat case_decide; try done. subst F. by rewrite trace_loop_empty.
Qed.

Lemma trace_loop_range ress h F S :
  F ⊆ all_faces ∨ ress ≠ [] →
  trace_loop ress h F = Ok S → S ⊆ all_faces.
Proof.
  revert h F. induction ress as [| res ress IH]; intros h F Hor.
  - simpl. intros [= <-]. by destruct Hor.
  - rewrite trace_loop_cons.
    pose proof (map_faces_range res h F) as Hm.
    destruct (is_pentagon h); [intros [= <-]; set_solver |].
    case_decide; [intros [= <-]; set_solver |].
    case_decide; [intros [= <-]; set_solver |].
    apply IH. by left.
Qed.

Lemma trace_loop_union ress h F G S T :
  trace_loop ress h F = Ok S → trace_loop ress h G = Ok T →
  trace_loop ress h (F ∪ G) = Ok (S ∪ T).
Proof.
  revert h F G S T. induction ress as [| res ress IH]; intros h F G S T.
  - simpl. by intros [= <-] [= <-].
  - rewrite !trace_loop_cons, map_faces_union.
    set (MF := map_faces (step_face_map res h) F).
    set (MG := map_faces (step_face_map res h) G).
    destruct (is_pentagon h).
    { intros [= <-] [= <-]. f_equal; set_solver. }
    destruct (decide (cell_to_child_pos h (res - 1) = 0)).
    { intros [= <-] [= <-]. f_equal; set_solver. }
    intros HS HT.
    assert (trace_loop ress (cell_to_parent h (res - 1)) MF = Ok S) as HS'.
    { destruct (decide (MF = ∅)) as [-> |]; [| done].
      rewrite trace_loop_empty. done. }
    assert (trace_loop ress (cell_to_parent h (res - 1)) MG = Ok T) as HT'.
    { destruct (decide (MG = ∅)) as [-> |]; [| done].
      rewrite trace_loop_empty. done. }
    clear HS HT.
    destruct (decide (MF ∪ MG = ∅)) as [Hempty |]; [| by apply IH].
    rewrite <- (IH _ _ _ _ _ HS' HT'), Hempty.
    by rewrite trace_loop_empty.
Qed.

Lemma trace_loop_foreign ress h F :
  ress ≠ [] → trace_loop ress h (F ∩ all_faces) = trace_loop ress h F.
Proof.
  destruct ress as [| res ress]; [done |]. intros _.
  by rewrite !trace_loop_cons, map_faces_foreign.
Qed.

End TracerMore.

(** X1.  [trace_cell_to_parent_faces] is the tracer with its default
    target, and it raises [ValueError] exactly on a cell of resolution 0
    or less: a root cell has no parent to trace to. *)
Theorem trace_parent_faces_root {cell : Type} `{H3 cell} (h : cell) (F : gset Z) :
  trace_cell_to_parent_faces h F = trace_cell_to_ancestor_faces h F None
  ∧ (trace_cell_to_parent_faces h F = Raise ValueError ↔ get_resolution h ≤ 0)
  ∧ (0 < get_resolution h → ∃ S, trace_cell_to_parent_faces h F = Ok S).
Proof.
  unfold trace_cell_to_parent_faces. split_and!; [done | |].
  - rewrite trace_unfold. simpl.
    rewrite decide_False by lia. case_decide; [split; [lia | done] |].
    destruct (trace_loop_Ok
                (range_down (get_resolution h) (get_resolution h - 1)) h F)
      as [S ->].
    split; [done | lia].
  - intros Hpos. rewrite trace_valid by lia. apply trace_loop_Ok.
Qed.

(** X2.  Whatever the candidate set, the faces the tracer returns are
    among the six faces 1..6. *)
Theorem trace_result_in_range {cell : Type} `{H3 cell}
    (h : cell) (F S : gset Z) (t : option Z) :
  trace_cell_to_ancestor_faces h F t = Ok S → S ⊆ all_faces.
Proof.
  rewrite trace_unfold. simpl.
  case_decide as Hge; [done |]. case_decide as Hneg; [done |].
  apply trace_loop_range. right.
  rewrite range_down_cons by lia. done.
Qed.

Lemma trace_result_in_range_witness :
  let c : Digits.cell := (0, [3; 1; 1; 1; 1; 1]) in
  trace_cell_to_ancestor_faces c (fset [2; 3; 9]) (Some 5) = Ok (fset [3])
  ∧ fset [3] ⊆ all_faces.
Proof.
  intros c.
  assert (trace_cell_to_ancestor_faces c (fset [2; 3; 9]) (Some 5)
          = Ok (fset [3])) as Htrace by reflexivity.
  split; [done |].
  exact (trace_result_in_range c (fset [2; 3; 9]) (fset [3]) (Some 5) Htrace).
Defined.

(** X3.  The tracer works face by face: the trace of a union of two
    candidate sets is the union of their traces. *)
Theorem trace_union {cell : Type} `{H3 cell}
    (h : cell) (F G S T : gset Z) (t : option Z) :
  trace_cell_to_ancestor_faces h F t = Ok S →
  trace_cell_to_ancestor_faces h G t = Ok T →
  trace_cell_to_ancestor_faces h (F ∪ G) t = Ok (S ∪ T).
Proof.
  rewrite !trace_unfold. simpl.
  case_decide; [done |]. case_decide; [done |].
  apply trace_loop_union.
Qed.

Lemma trace_union_witness :
  let c : Digits.cell := (0, [3; 1; 1; 1; 1; 1]) in
  trace_cell_to_ancestor_faces c (fset [2] ∪ fset [6]) (Some 5)
  = Ok (fset [3] ∪ fset [2]).
Proof.
  intros c.
  exact (trace_union c (fset [2]) (fset [6]) (fset [3]) (fset [2]) (Some 5)
                     eq_refl eq_refl).
Defined.

(** X4.  Candidate faces outside 1..6 contribute nothing: the tracer
    gives the same outcome on a set and on its part within the six
    faces. *)
Theorem trace_ignores_foreign_faces {cell : Type} `{H3 cell}
    (h : cell) (F : gset Z) (t : option Z) :
  trace_cell_to_ancestor_faces h (F ∩ all_faces) t
  = trace_cell_to_ancestor_faces h F t.
Proof.
  rewrite !trace_unfold. simpl.
  case_decide; [done |]. case_decide; [done |].
  apply trace_loop_foreign. rewrite range_down_cons by lia. done.
Qed.

Section TracerOnGrid.

Context {cell : Type} `{H3 cell} `{!H3ParentLaws cell}.

Implicit Types (h c : cell) (F G S T : gset Z).

(** The first iteration decides at a pentagon and at a centre child. *)
Lemma trace_stops_at h F (t : Z) :
  0 ≤ t < get_resolution h →
  is_pentagon h = true ∨ cell_to_child_pos h (get_resolution h - 1) = 0 →
  trace_cell_to_ancestor_faces h F (Some t) = Ok ∅.
Proof.
  intros Ht Hstop. rewrite trace_valid, range_down_cons by lia.
  rewrite trace_loop_cons.
  destruct Hstop as [-> | ->]; [done |].
  destruct (is_pentagon h); [done |]. by rewrite decide_True.
Qed.

(** An empty trace stays empty further up. *)
Lemma trace_empty_persists c F (t1 t2 : Z) :
  0 ≤ t2 → t2 < t1 → t1 < get_resolution c →
  trace_cell_to_ancestor_faces c F (Some t1) = Ok ∅ →
  trace_cell_to_ancestor_faces c F (Some t2) = Ok ∅.
Proof.
  intros H0 H12 H1R Hempty.
  rewrite (trace_compose c F t1 t2), Hempty by lia. simpl.
  apply trace_empty_input. rewrite parent_resolution; lia.
Qed.

End TracerOnGrid.

(** X5.  A pentagon or a centre child anywhere on the way up empties the
    trace: at the cell itself, or, on a coherent grid, at any ancestor
    strictly finer than the target. *)
Theorem trace_truncated_on_path {cell : Type} `{H3 cell} `{!H3ParentLaws cell}
    (c : cell) (F : gset Z) (t r : Z) :
  0 ≤ t → t < r → r ≤ get_resolution c →
  let a := if decide (r = get_resolution c) then c else cell_to_parent c r in
  is_pentagon a = true ∨ cell_to_child_pos a (r - 1) = 0 →
  trace_cell_to_ancestor_faces c F (Some t) = Ok ∅.
Proof.
  intros H0 Htr HrR a Hstop. unfold a in Hstop.
  case_decide as Heq.
  - subst r. by apply trace_stops_at.
  - rewrite (trace_compose c F r t) by lia.
    destruct (trace_loop_Ok (range_down (get_resolution c) r) c F) as [G HG].
    rewrite <- trace_valid in HG by lia. rewrite HG. simpl.
    assert (get_resolution (cell_to_parent c r) = r) as Hp
      by (apply parent_resolution; lia).
    apply trace_stops_at; rewrite Hp; [lia | done].
Qed.

Lemma trace_truncated_on_path_witness :
  let c : Digits.cell := (0, [3; 1; 0; 1; 1; 1]) in
  (0 ≤ 2 ∧ 2 < 4 ∧ 4 ≤ get_resolution c
   ∧ cell_to_child_pos (cell_to_parent c 4) 3 = 0)
  ∧ trace_cell_to_ancestor_faces c all_faces (Some 2) = Ok ∅.
Proof.
  intros c.
  assert (0 ≤ 2) as H0 by lia.
  assert (2 < 4) as H1 by lia.
  assert (4 ≤ get_resolution c) as H2 by (vm_compute; discriminate).
  split; [by split_and! |].
  exact (trace_truncated_on_path
           (H3ParentLaws0 := DigitsLaws.digits_parent_laws)
           c all_faces 2 4 H0 H1 H2 (or_intror eq_refl)).
Defined.

(** ** Further properties of the finder *)

(** X6.  The finder hands back the cell it was given when that cell is a
    root, when the face set is empty, and when the cell is a pentagon or
    a centre child. *)
Theorem coarsest_returns_input {cell : Type} `{H3 cell} (h : cell) (F : gset Z) :
  get_resolution h ≤ 0 ∨ F = ∅ ∨ is_pentagon h = true
  ∨ cell_to_child_pos h (get_resolution h - 1) = 0 →
  cell_to_coarsest_ancestor_on_faces h F = Ok h.
Proof.
  intros Hcase. apply coarsest_halts. unfold halts.
  destruct (decide (get_resolution h ≤ 0)) as [| Hpos]; [by left |]. right.
  destruct Hcase as [? | [-> | Hstop]]; [lia | |].
  - apply trace_empty_input. lia.
  - rewrite trace_valid, range_down_cons by lia.
    rewrite trace_loop_cons.
    destruct Hstop as [-> | ->]; [done |].
    destruct (is_pentagon h); [done |]. by rewrite decide_True.
Qed.

Lemma coarsest_returns_input_witness :
  let c : Digits.cell := (4, [0; 0]) in
  is_pentagon c = true
  ∧ cell_to_coarsest_ancestor_on_faces c all_faces = Ok c.
Proof.
  intros c. split; [reflexivity |].
  exact (coarsest_returns_input c all_faces
           (or_intror (or_intror (or_introl eq_refl)))).
Defined.

(** X7.  On a coherent grid the cell the finder returns is the input
    cell or its ancestor at a coarser resolution. *)
Theorem coarsest_is_ancestor {cell : Type} `{H3 cell} `{!H3ParentLaws cell}
    (c a : cell) (F : gset Z) :
  cell_to_coarsest_ancestor_on_faces c F = Ok a →
  a = c
  ∨ (0 ≤ get_resolution a < get_resolution c
     ∧ a = cell_to_parent c (get_resolution a)).
Proof.
  intros Ha.
  destruct (coarsest_loop_spec (Z.to_nat (get_resolution c)) c F)
    as (a' & G & Ha' & Hcar & _); [lia |].
  unfold cell_to_coarsest_ancestor_on_faces in Ha.
  rewrite Ha in Ha'. injection Ha' as <-.
  destruct Hcar as [[-> _] | (Hlt & Hpar & _ & Htr)]; [by left |].
  right. split; [| done]. split; [| done].
  destruct (decide (0 ≤ get_resolution a)); [done |].
  rewrite trace_invalid in Htr by (simpl; lia). done.
Qed.

Lemma coarsest_is_ancestor_witness :
  let c : Digits.cell := (0, [3; 1; 2; 1; 1; 1]) in
  let a : Digits.cell := (0, [2; 1; 1; 1]) in
  cell_to_coarsest_ancestor_on_faces c (fset [2; 3]) = Ok a
  ∧ (a = c
     ∨ (0 ≤ get_resolution a < get_resolution c
        ∧ a = cell_to_parent c (get_resolution a))).
Proof.
  intros c a. split; [by vm_compute |].
  exact (coarsest_is_ancestor
           (H3ParentLaws0 := DigitsLaws.digits_parent_laws)
           c a (fset [2; 3]) eq_refl).
Defined.

(** X8.  On a coherent grid the cell the finder returns is the coarsest
    level the faces reach: the trace of the input faces is non-empty at
    every target from the resolution of that cell up to, but not
    including, that of the input cell, and empty at every coarser target. *)
Theorem coarsest_is_extremal {cell : Type} `{H3 cell} `{!H3ParentLaws cell}
    (c a : cell) (F : gset Z) :
  cell_to_coarsest_ancestor_on_faces c F = Ok a →
  (∀ t, get_resolution a ≤ t < get_resolution c →
        ∃ S, trace_cell_to_ancestor_faces c F (Some t) = Ok S ∧ S ≠ ∅)
  ∧ (∀ t, 0 ≤ t < get_resolution a →
          trace_cell_to_ancestor_faces c F (Some t) = Ok ∅).
Proof.
  intros Ha.
  destruct (coarsest_loop_spec (Z.to_nat (get_resolution c)) c F)
    as (a' & G & Ha' & Hcar & Hhalt); [lia |].
  unfold cell_to_coarsest_ancestor_on_faces in Ha.
  rewrite Ha in Ha'. injection Ha' as <-.
  destruct Hcar as [[-> ->] | (Hlt & Hpar & HG & Htr)].
  - split; [intros t Ht; lia |].
    intros t Ht. destruct Hhalt as [? | Hstop]; [lia |].
    destruct (decide (t = get_resolution c - 1)) as [-> | Hne]; [done |].
    apply (trace_empty_persists c F (get_resolution c - 1) t); [lia.. | done].
  - assert (0 ≤ get_resolution a) as Hnonneg.
    { destruct (decide (0 ≤ get_resolution a)); [done |].
      rewrite trace_invalid in Htr by (simpl; lia). done. }
    split.
    + intros t Ht.
      destruct (trace_loop_Ok (range_down (get_resolution c) t) c F)
        as [S HS].
      rewrite <- trace_valid in HS by lia.
      exists S. split; [done |]. intros ->.
      destruct (decide (t = get_resolution a)) as [-> | Hne];
        [congruence |].
      rewrite (trace_empty_persists c F t (get_resolution a)) in Htr
        by (done || lia).
      by simplify_eq.
    + intros t Ht. destruct Hhalt as [? | Hstop]; [lia |].
      assert (trace_cell_to_ancestor_faces c F (Some (get_resolution a - 1))
              = Ok ∅) as Hbelow.
      { rewrite (trace_compose c F (get_resolution a)) by lia.
        rewrite Htr. simpl. by rewrite <- Hpar. }
      destruct (decide (t = get_resolution a - 1)) as [-> | Hne]; [done |].
      apply (trace_empty_persists c F (get_resolution a - 1) t);
        [lia.. | done].
Qed.

Lemma coarsest_is_extremal_witness :
  let c : Digits.cell := (0, [3; 1; 2; 1; 1; 1]) in
  let a : Digits.cell := (0, [2; 1; 1; 1]) in
  cell_to_coarsest_ancestor_on_faces c (fset [2; 3]) = Ok a
  ∧ (∀ t, get_resolution a ≤ t < get_resolution c →
          ∃ S, trace_cell_to_ancestor_faces c (fset [2; 3]) (Some t) = Ok S
               ∧ S ≠ ∅)
  ∧ (∀ t, 0 ≤ t < get_resolution a →
          trace_cell_to_ancestor_faces c (fset [2; 3]) (Some t) = Ok ∅).
Proof.
  intros c a. split; [by vm_compute |].
  exact (coarsest_is_extremal
           (H3ParentLaws0 := DigitsLaws.digits_parent_laws)
           c a (fset [2; 3]) eq_refl).
Defined.

(** ** Further properties of the expander *)

Section ExpanderMore.

Context {cell : Type} `{H3 cell}.

Implicit Types (current p x c ch : cell) (F G S faces : gset Z).

Lemma for_children_all_nil (visit : cell → result (list cell))
    (l acc : list cell) :
  (∀ ch, ch ∈ l → visit ch = Ok []) → for_children visit l acc = Ok acc.
Proof.
  revert acc. induction l as [| ch l IH]; intros acc Hall; [done |].
  simpl. rewrite Hall by (rewrite elem_of_cons; auto). simpl.
  rewrite app_nil_r. apply IH. intros ch' Hin. apply Hall.
  rewrite elem_of_cons. auto.
Qed.

Lemma for_children_visits (visit : cell → result (list cell))
    (l acc r : list cell) :
  for_children visit l acc = Ok r →
  ∀ ch, ch ∈ l → ∃ found, visit ch = Ok found.
Proof.
  revert acc. induction l as [| ch l IH]; intros acc Hr ch' Hin.
  - by apply elem_of_nil in Hin.
  - simpl in Hr. destruct (visit ch) as [found |] eqn:Hv; [| done].
    simpl in Hr. apply elem_of_cons in Hin as [-> | Hin]; [eauto |].
    by eapply IH.
Qed.

(** The results of distinct children do not overlap when every returned
    cell remembers the child it came from. *)
Lemma for_children_NoDup (key : cell → cell)
    (visit : cell → result (list cell)) (l acc r : list cell) :
  NoDup l →
  (∀ ch found, ch ∈ l → visit ch = Ok found →
               NoDup found ∧ ∀ c, c ∈ found → key c = ch) →
  NoDup acc → (∀ c, c ∈ acc → key c ∉ l) →
  for_children visit l acc = Ok r → NoDup r.
Proof.
  revert acc. induction l as [| ch l IH]; intros acc Hl Hvisit Hacc Hkeys.
  - simpl. by intros [= <-].
  - simpl. destruct (visit ch) as [found |] eqn:Hv; [| done]. simpl.
    apply NoDup_cons in Hl as [Hch Hl].
    destruct (Hvisit ch found) as [Hfound Hkey];
      [rewrite elem_of_cons; auto | done |].
    apply IH; [done | | |].
    + intros ch' found' Hin. apply Hvisit. rewrite elem_of_cons. auto.
    + apply NoDup_app. split_and!; [done | | done].
      intros c Hc Hc'. apply (Hkeys c Hc).
      rewrite (Hkey c Hc'), elem_of_cons. auto.
    + intros c [Hc | Hc]%elem_of_app.
      * intros Hin. apply (Hkeys c Hc). rewrite elem_of_cons. auto.
      * by rewrite (Hkey c Hc).
Qed.

Lemma descendant_cons x ch c :
  ch ∈ cell_to_children x (get_resolution x + 1) →
  descendant ch c → descendant x c.
Proof.
  intros Hch. induction 1 as [| y z _ IH Hz].
  - eapply descendant_child; [apply descendant_self | done].
  - by eapply descendant_child.
Qed.

(** An inner loop that returns a non-empty set found the position. *)
Lemma collect_child_faces_nonempty
    (reverse_mapping : gmap Z (gmap Z (gset Z))) (child_pos : Z)
    faces (mapped : gset Z) :
  collect_child_faces reverse_mapping child_pos (elements faces) ∅ = Ok mapped →
  mapped ≠ ∅ →
  ∃ by_face, reverse_mapping !! child_pos = Some by_face
             ∧ mapped = child_faces_of by_face faces.
Proof.
  intros Hc Hne.
  destruct (reverse_mapping !! child_pos) as [by_face |] eqn:Hpos.
  - rewrite (collect_child_faces_present _ _ _ _ Hpos) in Hc.
    exists by_face. split; [done | congruence].
  - destruct (elements faces) as [| pf l]; simpl in Hc; [congruence |].
    by rewrite (getitem_None _ _ Hpos) in Hc.
Qed.

Lemma child_faces_of_mono (by_face : gmap Z (gset Z)) F G :
  F ⊆ G → child_faces_of by_face F ⊆ child_faces_of by_face G.
Proof.
  intros Hsub y. rewrite !child_faces_of_elem.
  intros (pf & s & Hpf & Hs & Hy). exists pf, s. auto.
Qed.

(** The descent is monotone in the face set. *)
Lemma children_by_face_mono (fuel : nat) (target_res : Z) current (res : Z)
    F G (cellsF cellsG : list cell) c :
  F ⊆ G →
  _children_by_face fuel target_res current res F = Ok cellsF →
  _children_by_face fuel target_res current res G = Ok cellsG →
  c ∈ cellsF → c ∈ cellsG.
Proof.
  revert current res F G cellsF cellsG.
  induction fuel as [| fuel IH]; intros current res F G cellsF cellsG Hsub.
  - simpl. case_decide; [| done]. by intros [= <-] [= <-].
  - destruct (decide (res = target_res)) as [Heq | Hne].
    + simpl. rewrite !decide_True by done. by intros [= <-] [= <-].
    + destruct (children_by_face_step fuel target_res current res F Hne)
        as (rm & Hrm & ->).
      destruct (children_by_face_step fuel target_res current res G Hne)
        as (rm' & Hrm' & ->).
      assert (rm' = rm) as -> by congruence.
      case_decide; [done |].
      intros HF HG Hc.
      apply (for_children_Ok _ _ _ _ HF) in Hc
        as [Hc | (ch & found & Hch & Hvisit & Hc)];
        [by apply elem_of_nil in Hc |].
      destruct (for_children_visits _ _ _ _ HG ch Hch) as [found' Hvisit'].
      apply (for_children_Ok _ _ _ _ HG). right. exists ch, found'.
      split_and!; [done | done |].
      destruct (collect_child_faces rm _ (elements F) _) as [mF |] eqn:HmF;
        simpl in Hvisit; [| done].
      case_decide as HneF; [simplify_eq; by apply elem_of_nil in Hc |].
      destruct (collect_child_faces_nonempty _ _ _ _ HmF HneF)
        as (by_face & Hpos & ->).
      rewrite (collect_child_faces_present _ _ _ _ Hpos) in Hvisit'.
      simpl in Hvisit'.
      pose proof (child_faces_of_mono by_face F G Hsub) as Hmono.
      rewrite decide_False in Hvisit' by set_solver.
      by eapply IH.
Qed.

Context `{!H3ChildLaws cell}.

(** Where the returned cells are: at the target resolution, below the
    cell the descent started from, which the walk up from them reaches
    again; and none of them is a centre child. *)
Lemma children_by_face_cells (fuel : nat) (target_res : Z) current faces
    (cells : list cell) c :
  get_resolution current ≤ target_res →
  _children_by_face fuel target_res current (get_resolution current) faces
    = Ok cells →
  c ∈ cells →
  get_resolution c = target_res
  ∧ descendant current c
  ∧ ancestor_walk (range_down target_res (get_resolution current)) c = current
  ∧ (get_resolution current < target_res →
     cell_to_child_pos c (target_res - 1) ≠ 0).
Proof.
  revert current faces cells.
  induction fuel as [| fuel IH]; intros current faces cells Hle.
  - simpl. case_decide as Heq; [| done].
    intros [= <-] ->%list_elem_of_singleton.
    rewrite <- Heq, range_down_nil by lia.
    split_and!; [done | apply descendant_self | done | lia].
  - destruct (decide (get_resolution current = target_res)) as [Heq | Hne].
    + simpl. rewrite decide_True by done.
      intros [= <-] ->%list_elem_of_singleton.
      rewrite <- Heq, range_down_nil by lia.
      split_and!; [done | apply descendant_self | done | lia].
    + destruct (children_by_face_step fuel target_res current _ faces Hne)
        as (rm & Hrm & ->).
      case_decide; [done |].
      intros Hcells Hc.
      apply (for_children_Ok _ _ _ _ Hcells) in Hc
        as [Hc | (ch & found & Hch & Hvisit & Hc)];
        [by apply elem_of_nil in Hc |].
      pose proof (children_resolution _ _ Hch) as Hres.
      pose proof (children_parent _ _ Hch) as Hpar.
      destruct (collect_child_faces rm _ _ _) as [mapped |] eqn:Hm;
        simpl in Hvisit; [| done].
      case_decide as Hmapped;
        [simplify_eq; by apply elem_of_nil in Hc |].
      destruct (collect_child_faces_nonempty _ _ _ _ Hm Hmapped)
        as (by_face & Hbf & ->).
      rewrite <- Hres in Hvisit.
      destruct (IH ch _ _ ltac:(lia) Hvisit Hc)
        as (HresC & Hdesc & Hwalk & Hpos).
      split_and!; [done | by eapply descendant_cons | |].
      * rewrite (range_down_app _ (get_resolution ch)) by lia.
        rewrite (range_down_cons (get_resolution ch)),
          (range_down_nil (get_resolution ch - 1)) by lia.
        rewrite ancestor_walk_app. simpl. rewrite Hwalk.
        replace (get_resolution ch - 1) with (get_resolution current) by lia.
        done.
      * intros _.
        destruct (decide (get_resolution ch = target_res)) as [Hlast | Hmore];
          [| apply Hpos; lia].
        assert (c = ch) as ->.
        { rewrite <- Hwalk, Hlast. by rewrite range_down_nil by lia. }
        replace (target_res - 1) with (get_resolution current) by lia.
        intros Hzero. rewrite Hzero in Hbf.
        rewrite (reverse_center_empty _ _ _ Hrm) in Hbf.
        apply Hmapped. simplify_eq. apply set_eq. intros y.
        rewrite child_faces_of_elem. split; [| set_solver].
        intros (pf & s & _ & Hs & _). by rewrite lookup_empty in Hs.
Qed.

(** The descent returns no cell twice when the grid lists no child
    twice. *)
Lemma children_by_face_NoDup (fuel : nat) (target_res : Z) current faces
    (cells : list cell) :
  (∀ x, NoDup (cell_to_children x (get_resolution x + 1))) →
  get_resolution current ≤ target_res →
  _children_by_face fuel target_res current (get_resolution current) faces
    = Ok cells →
  NoDup cells.
Proof.
  intros Hdistinct. revert current faces cells.
  induction fuel as [| fuel IH]; intros current faces cells Hle.
  - simpl. case_decide; [| done]. intros [= <-]. apply NoDup_singleton.
  - destruct (decide (get_resolution current = target_res)) as [Heq | Hne].
    + simpl. rewrite decide_True by done. intros [= <-]. apply NoDup_singleton.
    + destruct (children_by_face_step fuel target_res current _ faces Hne)
        as (rm & Hrm & ->).
      case_decide; [done |].
      apply (for_children_NoDup
               (ancestor_walk
                  (range_down target_res (get_resolution current + 1))));
        [apply Hdistinct | | apply NoDup_nil_2
        | intros c Hc; by apply elem_of_nil in Hc].
      intros ch found Hch Hvisit.
      pose proof (children_resolution _ _ Hch) as Hres.
      destruct (collect_child_faces rm _ _ _) as [mapped |];
        simpl in Hvisit; [| done].
      case_decide.
      { simplify_eq. split; [apply NoDup_nil_2 |].
        intros c Hc. by apply elem_of_nil in Hc. }
      rewrite <- Hres in *.
      assert (get_resolution ch ≤ target_res) as Hle' by lia.
      split.
      * by eapply IH.
      * intros c Hc.
        by destruct (children_by_face_cells _ _ _ _ _ _ Hle' Hvisit Hc)
          as (_ & _ & ? & _).
Qed.

End ExpanderMore.

Section ExpanderComplete.

Context {cell : Type} `{H3 cell} `{!H3ChildLaws cell}.

Implicit Types (current p x c ch : cell) (F G S M faces : gset Z).

Lemma below_snoc (n : nat) p x ch :
  below n p x → ch ∈ cell_to_children x (get_resolution x + 1) →
  below (S n) p ch.
Proof.
  revert p. induction n as [| n IH]; intros p; simpl.
  - intros -> Hch. by exists ch.
  - intros (y & Hy & Hbelow) Hch. exists y. split; [done |]. by apply IH.
Qed.

Lemma descendant_below p c : descendant p c → ∃ n, below n p c.
Proof.
  induction 1 as [| x ch _ [n IH] Hch]; [by exists O |].
  exists (S n). by eapply below_snoc.
Qed.

Lemma below_walk (n : nat) x c :
  below n x c →
  get_resolution c = get_resolution x + Z.of_nat n
  ∧ ancestor_walk (range_down (get_resolution c) (get_resolution x)) c = x.
Proof.
  revert x. induction n as [| n IH]; intros x; simpl.
  - intros ->. split; [lia |]. by rewrite range_down_nil by lia.
  - intros (ch & Hch & Hbelow).
    destruct (IH ch Hbelow) as [Hres Hwalk].
    pose proof (children_resolution _ _ Hch) as HresCh.
    pose proof (children_parent _ _ Hch) as Hpar.
    split; [lia |].
    rewrite (range_down_app _ (get_resolution ch)) by lia.
    rewrite (range_down_cons (get_resolution ch)),
      (range_down_nil (get_resolution ch - 1)) by lia.
    rewrite ancestor_walk_app. simpl. rewrite Hwalk.
    replace (get_resolution ch - 1) with (get_resolution x) by lia.
    done.
Qed.

(** Below hexagons the descent misses no cell: a cell [n] levels below
    [x] whose trace up to [x] meets the face set is returned. *)
Lemma children_by_face_complete p (n fuel : nat) x M c G S
    (cells : list cell) :
  (∀ y, descendant p y → is_pentagon y = false) →
  descendant p x →
  below n x c → (n ≤ fuel)%nat →
  trace_loop (range_down (get_resolution c) (get_resolution x)) c G = Ok S →
  S ∩ M ≠ ∅ →
  _children_by_face fuel (get_resolution c) x (get_resolution x) M = Ok cells →
  c ∈ cells.
Proof.
  intros Hhex. revert fuel x M S cells.
  induction n as [| n IH]; intros fuel x M S cells Hdesc Hbelow Hfuel.
  - simpl in Hbelow. subst c. intros _ _.
    destruct fuel; simpl; rewrite decide_True by done;
      intros [= <-]; by apply list_elem_of_singleton.
  - destruct Hbelow as (ch & Hch & Hbelow).
    destruct (below_walk n ch c Hbelow) as [HresC Hwalk].
    pose proof (children_resolution _ _ Hch) as Hres.
    pose proof (children_parent _ _ Hch) as Hpar.
    assert (descendant p ch) as Hdch by (by eapply descendant_child).
    destruct fuel as [| fuel]; [lia |].
    assert (get_resolution x ≠ get_resolution c) as Hne by lia.
    destruct (children_by_face_step fuel (get_resolution c) x _ M Hne)
      as (rm & Hrm & ->).
    case_decide; [by intros _ _ ? |].
    rewrite (Hhex x Hdesc) in Hrm.
    destruct (reverse_position_lookup _ _ _ _ Hrm (children_pos _ _ Hch))
      as [by_face Hbf].
    rewrite (range_down_app _ (get_resolution ch)) by lia.
    rewrite trace_loop_app.
    destruct (trace_loop_Ok (range_down (get_resolution c) (get_resolution ch))
                c G) as [S' HS'].
    rewrite HS'. simpl. rewrite Hwalk.
    rewrite (range_down_cons (get_resolution ch)),
      (range_down_nil (get_resolution ch - 1)) by lia.
    rewrite trace_loop_cons.
    intros Hstep Hmeet Hcells.
    assert (S ≠ ∅) as HSne by set_solver.
    assert (S = map_faces (step_face_map (get_resolution ch) ch) S') as ->.
    { simpl in Hstep. destruct (is_pentagon ch); [congruence |].
      case_decide; [congruence |]. case_decide; congruence. }
    apply set_choose_L in Hmeet as [f [Hf HfM]%elem_of_intersection].
    apply map_faces_elem in Hf as (f' & Hf' & Hl).
    assert (f' ∈ child_faces_of by_face M) as Hf'M.
    { unfold step_face_map, get_or_empty in Hl.
      replace (get_resolution ch - 1) with (get_resolution x) in Hl by lia.
      rewrite Hpar, (Hhex x Hdesc), Hres in Hl.
      destruct (forward_table false !! _) as [by_pos |] eqn:Ht;
        simpl in Hl; [| done].
      destruct (by_pos !! _) as [face_map |] eqn:Hp; simpl in Hl; [| done].
      destruct (forward_to_reverse false _ _ Ht _ _ Hp _ _ Hl)
        as [[? _] | Hin]; [done |].
      unfold reverse_lookup in Hin.
      rewrite Hrm in Hin. simpl in Hin. rewrite Hbf in Hin. simpl in Hin.
      apply child_faces_of_elem.
      destruct (by_face !! f) as [s |] eqn:Hs; simpl in Hin; [| set_solver].
      eauto. }
    destruct (for_children_visits _ _ _ _ Hcells ch Hch) as [found Hfound].
    apply (for_children_Ok _ _ _ _ Hcells). right. exists ch, found.
    split; [done |]. split; [done |].
    rewrite (collect_child_faces_present _ _ _ _ Hbf) in Hfound.
    simpl in Hfound.
    rewrite decide_False in Hfound by set_solver. rewrite <- Hres in Hfound.
    apply (IH fuel ch (child_faces_of by_face M) S' found);
      [done | done | lia | done | set_solver | done].
Qed.

End ExpanderComplete.

Module DigitsMore.

Import Digits.

Lemma children_NoDup (x : cell) : NoDup (children x (resolution x + 1)).
Proof.
  unfold children.
  replace (Z.to_nat (resolution x + 1 - resolution x)) with 1%nat by lia.
  assert (∀ l : list cell, l ≫= descend 0 = l) as Hid.
  { induction l as [| c l IH]; [done |]. by rewrite bind_cons, IH. }
  change (descend 1 x) with (children1 x ≫= descend 0).
  rewrite Hid. unfold children1. apply NoDup_fmap_2.
  - intros d1 d2 Heq. by simplify_eq.
  - unfold child_digits. destruct (pentagon x); table_check.
Qed.

End DigitsMore.

(** X9.  On a coherent grid every cell the expander returns is at the
    target resolution and lies below the parent cell. *)
Theorem expand_cells_at_target {cell : Type} `{H3 cell} `{!H3ChildLaws cell}
    (p : cell) (target_res : Z) (F : gset Z) (cells : list cell) (c : cell) :
  children_on_boundary_faces p target_res F = Ok cells →
  c ∈ cells →
  get_resolution c = target_res ∧ descendant p c.
Proof.
  unfold children_on_boundary_faces. case_decide as Hlt; [done |].
  intros Hcells Hc.
  assert (get_resolution p ≤ target_res) as Hle by lia.
  by destruct (children_by_face_cells _ _ _ _ _ _ Hle Hcells Hc)
    as (? & ? & _).
Qed.

Lemma expand_cells_at_target_witness :
  let p : Digits.cell := (0, [1]) in
  let c : Digits.cell := (0, [3; 5; 1]) in
  get_resolution c = 3 ∧ descendant p c.
Proof.
  intros p c.
  assert (c ∈ [(0, [1; 1; 1]); (0, [3; 1; 1]); (0, [5; 1; 1]);
               (0, [1; 5; 1]); c]) as Hc
    by (rewrite !elem_of_cons; auto 10).
  exact (expand_cells_at_target
           (H3ChildLaws0 := DigitsLaws.digits_child_laws)
           p 3 (fset [1]) _ c eq_refl Hc).
Defined.

(** X10.  With an empty face set and a target finer than the parent
    cell, the expander returns the empty list when the parent cell is
    coarser than the finest resolution 15, on any grid and whatever the
    target; from a parent cell at resolution 15 or more it raises the
    [H3ResDomainError] of [h3.cell_to_children] instead. *)
Theorem expand_empty_faces {cell : Type} `{H3 cell} (p : cell) (target_res : Z) :
  get_resolution p < target_res →
  (get_resolution p < MAX_H3_RES →
   children_on_boundary_faces p target_res ∅ = Ok [])
  ∧ (MAX_H3_RES ≤ get_resolution p →
     children_on_boundary_faces p target_res ∅ = Raise H3ResDomainError).
Proof.
  intros Hlt. unfold children_on_boundary_faces.
  rewrite decide_False by lia.
  destruct (Z.to_nat (target_res - get_resolution p)) as [| fuel] eqn:Hfuel;
    [lia |].
  destruct (children_by_face_step fuel target_res p (get_resolution p) ∅)
    as (rm & _ & ->); [lia |].
  split; intros Hmax.
  - rewrite decide_False by lia.
    apply for_children_all_nil. intros ch _.
    rewrite elements_empty. simpl. by rewrite decide_True.
  - by rewrite decide_True by lia.
Qed.

Lemma expand_empty_faces_witness :
  let p : Digits.cell := (4, [0]) in
  get_resolution p < 20
  ∧ get_resolution p < MAX_H3_RES
  ∧ children_on_boundary_faces p 20 ∅ = Ok [].
Proof.
  intros p.
  assert (get_resolution p < 20) as Hlt by (vm_compute; reflexivity).
  assert (get_resolution p < MAX_H3_RES) as Hmax by (vm_compute; reflexivity).
  split_and!; [done | done |].
  exact (proj1 (expand_empty_faces p 20 Hlt) Hmax).
Defined.

(** X11.  On a coherent grid the expander never returns a centre child:
    with a target finer than the parent cell, no returned cell sits at
    position 0 under its own parent. *)
Theorem expand_no_centre_child {cell : Type} `{H3 cell} `{!H3ChildLaws cell}
    (p : cell) (target_res : Z) (F : gset Z) (cells : list cell) (c : cell) :
  get_resolution p < target_res →
  children_on_boundary_faces p target_res F = Ok cells →
  c ∈ cells →
  cell_to_child_pos c (target_res - 1) ≠ 0.
Proof.
  intros Hlt. unfold children_on_boundary_faces.
  rewrite decide_False by lia. intros Hcells Hc.
  assert (get_resolution p ≤ target_res) as Hle by lia.
  destruct (children_by_face_cells _ _ _ _ _ _ Hle Hcells Hc)
    as (_ & _ & _ & Hpos).
  by apply Hpos.
Qed.

Lemma expand_no_centre_child_witness :
  let p : Digits.cell := (0, [1]) in
  let c : Digits.cell := (0, [3; 5; 1]) in
  get_resolution p < 3 ∧ cell_to_child_pos c (3 - 1) ≠ 0.
Proof.
  intros p c.
  assert (get_resolution p < 3) as Hlt by (vm_compute; reflexivity).
  assert (c ∈ [(0, [1; 1; 1]); (0, [3; 1; 1]); (0, [5; 1; 1]);
               (0, [1; 5; 1]); c]) as Hc
    by (rewrite !elem_of_cons; auto 10).
  split; [done |].
  exact (expand_no_centre_child
           (H3ChildLaws0 := DigitsLaws.digits_child_laws)
           p 3 (fset [1]) _ c Hlt eq_refl Hc).
Defined.

(** X12.  On a coherent grid and below hexagons only, for [k >= 1]
    levels that stay within the finest resolution 15 of the grid, the
    expander returns exactly the cells [k] levels below the parent cell
    whose trace of the six faces up to the parent cell meets the face
    set. *)
Theorem expand_exactly {cell : Type} `{H3 cell} `{!H3ChildLaws cell}
    (p : cell) (k : Z) (F : gset Z) :
  0 ≤ get_resolution p → 1 ≤ k → get_resolution p + k ≤ MAX_H3_RES →
  (∀ x, descendant p x → is_pentagon x = false) →
  ∃ cells,
    children_on_boundary_faces p (get_resolution p + k) F = Ok cells
    ∧ ∀ c, c ∈ cells ↔
        descendant p c
        ∧ get_resolution c = get_resolution p + k
        ∧ ∃ T, trace_cell_to_ancestor_faces c all_faces
                 (Some (get_resolution p)) = Ok T
               ∧ T ∩ F ≠ ∅.
Proof.
  intros Hres Hk Hmax Hhex.
  unfold children_on_boundary_faces. rewrite decide_False by lia.
  assert (get_resolution p ≤ get_resolution p + k) as Hle by lia.
  destruct (children_by_face_total
              (Z.to_nat (get_resolution p + k - get_resolution p))
              (get_resolution p + k) p F) as [cells Hcells];
    [done | lia | lia |].
  exists cells. split; [done |]. intros c. split.
  - intros Hc.
    destruct (children_by_face_cells _ _ _ _ _ _ Hle Hcells Hc)
      as (HresC & Hdesc & _).
    split_and!; [done | done |].
    assert (F ≠ ∅ ∨ get_resolution p ≠ get_resolution p + k) as Hdeep
      by (right; lia).
    destruct (children_by_face_trace _ _ p p F cells c Hhex
                (descendant_self p) Hle Hdeep Hcells Hc)
      as (_ & G & S & HG & HGall & Hloop & HS & HSF & _).
    assert (G ⊆ all_faces) as Hall.
    { destruct HGall as [[_ ->] | ?]; [lia | done]. }
    destruct (trace_loop_Ok (range_down (get_resolution c) (get_resolution p))
                c all_faces) as [T HT].
    exists T. rewrite trace_valid by lia. split; [done |].
    rewrite <- HresC in Hloop.
    pose proof (trace_loop_mono _ _ _ _ _ _ Hall Hloop HT) as HST.
    apply set_choose_L in HS as [f Hf]. set_solver.
  - intros (Hdesc & HresC & T & HT & Hmeet).
    destruct (descendant_below p c Hdesc) as [n Hbelow].
    destruct (below_walk n p c Hbelow) as [Hn _].
    rewrite trace_valid in HT by lia.
    rewrite <- HresC in Hcells.
    apply (children_by_face_complete p n
             (Z.to_nat (get_resolution c - get_resolution p))
             p F c all_faces T cells);
      [done | apply descendant_self | done | lia | done | done | done].
Qed.

Lemma expand_exactly_witness :
  let p : Digits.cell := (0, [1]) in
  ∃ cells,
    children_on_boundary_faces p (get_resolution p + 2) (fset [1]) = Ok cells
    ∧ ∀ c, c ∈ cells ↔
        descendant p c
        ∧ get_resolution c = get_resolution p + 2
        ∧ ∃ T, trace_cell_to_ancestor_faces c all_faces
                 (Some (get_resolution p)) = Ok T
               ∧ T ∩ fset [1] ≠ ∅.
Proof.
  intros p.
  assert (0 ≤ get_resolution p) as Hres by (vm_compute; discriminate).
  assert (1 ≤ 2) as Hk by lia.
  assert (get_resolution p + 2 ≤ MAX_H3_RES) as Hmax
    by (vm_compute; discriminate).
  exact (expand_exactly
           (H3ChildLaws0 := DigitsLaws.digits_child_laws)
           p 2 (fset [1]) Hres Hk Hmax
           (DigitsLaws.hexagons_below p eq_refl)).
Defined.

(** X13.  On a coherent grid whose lists of children have no repetition,
    the expander returns no cell twice. *)
Theorem expand_no_duplicates {cell : Type} `{H3 cell} `{!H3ChildLaws cell}
    (p : cell) (target_res : Z) (F : gset Z) (cells : list cell) :
  (∀ x : cell, NoDup (cell_to_children x (get_resolution x + 1))) →
  children_on_boundary_faces p target_res F = Ok cells →
  NoDup cells.
Proof.
  intros Hdistinct. unfold children_on_boundary_faces.
  case_decide as Hlt; [done |].
  apply children_by_face_NoDup; [done | lia].
Qed.

Lemma expand_no_duplicates_witness :
  NoDup [((0, [1; 1; 1]) : Digits.cell); (0, [3; 1; 1]); (0, [5; 1; 1]);
         (0, [1; 5; 1]); (0, [3; 5; 1])].
Proof.
  exact (expand_no_duplicates
           (H3ChildLaws0 := DigitsLaws.digits_child_laws)
           ((0, [1]) : Digits.cell) 3 (fset [1]) _
           DigitsMore.children_NoDup eq_refl).
Defined.

(** X14.  Away from position 3 of the pentagon tables, the forward and
    the inverse tables list the same pairs: a child face is sent to a
    parent face exactly when the inverse table lists it under that
    parent face. *)
Theorem tables_inverse_elsewhere (is_pent : bool)
    (parity pos child_face parent_face : Z) :
  ¬ (is_pent = true ∧ pos = 3) →
  forward_has is_pent parity pos child_face parent_face
  ↔ inverse_has is_pent parity pos parent_face child_face.
Proof.
  intros Hne. unfold forward_has. rewrite inverse_has_default. split.
  - intros Hf. apply forward_lookup_Some in Hf as (by_pos & fm & Ht & Hp & Hc).
    by destruct (forward_to_reverse is_pent _ _ Ht _ _ Hp _ _ Hc).
  - intros Hin.
    destruct (reverse_lookup is_pent parity pos parent_face) as [s |] eqn:Hr;
      simpl in Hin; [| set_solver].
    apply reverse_lookup_Some in Hr as (by_pos & bf & Ht & Hp & Hc).
    by destruct (reverse_to_forward is_pent _ _ Ht _ _ Hp _ _ Hc _ Hin).
Qed.

Lemma tables_inverse_elsewhere_witness :
  ¬ (true = true ∧ 5 = 3)
  ∧ (forward_has true 1 5 4 3 ↔ inverse_has true 1 5 3 4).
Proof.
  assert (¬ (true = true ∧ 5 = 3)) as Hne by (intros [_ ?]; lia).
  split; [done |].
  exact (tables_inverse_elsewhere true 1 5 4 3 Hne).
Defined.

(** X15.  The expander is monotone in the face set: with more faces it
    returns at least the same cells. *)
Theorem expand_monotone {cell : Type} `{H3 cell}
    (p : cell) (target_res : Z) (F G : gset Z) (cellsF cellsG : list cell)
    (c : cell) :
  F ⊆ G →
  children_on_boundary_faces p target_res F = Ok cellsF →
  children_on_boundary_faces p target_res G = Ok cellsG →
  c ∈ cellsF → c ∈ cellsG.
Proof.
  intros Hsub. unfold children_on_boundary_faces.
  case_decide; [done |]. by apply children_by_face_mono.
Qed.

Lemma expand_monotone_witness :
  let p : Digits.cell := (0, [1]) in
  let c : Digits.cell := (0, [5; 1]) in
  fset [1] ⊆ fset [1; 2]
  ∧ children_on_boundary_faces p 2 (fset [1]) = Ok [(0, [1; 1]); c]
  ∧ c ∈ [((0, [1; 1]) : Digits.cell); (0, [2; 1]); (0, [3; 1]); c].
Proof.
  intros p c. split; [table_check |]. split; [reflexivity |].
  assert (fset [1] ⊆ fset [1; 2]) as Hsub by table_check.
  assert (c ∈ [((0, [1; 1]) : Digits.cell); c]) as Hc
    by (rewrite !elem_of_cons; auto).
  exact (expand_monotone p 2 (fset [1]) (fset [1; 2]) _ _ c
                         Hsub eq_refl eq_refl Hc).
Defined.
